(** * Inactive regions of vscode-clangd: semantic-token post-processing

    A shallow embedding of [src/inactive-regions.ts].  The module keeps, per
    document, the last full semantic-token buffer and the inactive ranges
    decoded from it; it rebuilds full buffers from deltas, hands a remapped
    copy downstream and asks the editor to decorate the inactive ranges.

    The embedding threads one explicit [state] through every function: the
    two module-level indices, the two per-document maps, the store of typed
    arrays (so that sharing between the cache, the caller and the copies is
    visible), the editor's list of visible views and the log of rendering
    requests. *)

From stdpp Require Import gmap strings list fin_maps.
From Stdlib Require Import ZArith NArith Lia.

Open Scope nat_scope.

(** ** JavaScript values that occur in the module

    Every number the module handles is a non-negative integer: elements of a
    [Uint32Array], array lengths and indices, and sums of such.  They are
    modelled by [N], exact as long as they stay below 2^53.  [Undefined] is
    what a read outside a typed array and an unassigned [let] give; [NaN] is
    what [+] gives when an operand is not a number. *)

Inductive value :=
  | Num (n : N)
  | Undefined
  | NaN.

#[global] Instance value_eq_dec : EqDecision value.
Proof. solve_decision. Defined.

(** [a == b] on these values: numbers compare by value, [undefined] equals
    only [undefined], [NaN] equals nothing. *)
Definition loose_eq (a b : value) : bool :=
  match a, b with
  | Num x, Num y => bool_decide (x = y)
  | Undefined, Undefined => true
  | _, _ => false
  end.

(** [a === 0] *)
Definition is_zero (a : value) : bool :=
  match a with
  | Num 0 => true
  | _ => false
  end.

(** [a + b] *)
Definition js_add (a b : value) : value :=
  match a, b with
  | Num x, Num y => Num (x + y)
  | _, _ => NaN
  end.

(** The conversion applied when a value is stored into a [Uint32Array]. *)
Definition to_uint32 (v : value) : N :=
  match v with
  | Num n => (n mod 2 ^ 32)%N
  | _ => 0%N
  end.

(** ** Data of the editor API and of the protocol *)

(** Typed arrays live in a store and are named by their address. *)
Definition loc := positive.

(** Documents are compared by identity ([editor.document === document], keys
    of the [WeakMap]s). *)
Definition TextDocument := nat.

Record TextEditor := {
  editor_id : nat;
  document : TextDocument;
}.

#[global] Instance TextEditor_eq_dec : EqDecision TextEditor.
Proof. solve_decision. Defined.

Record Position := {
  line : value;
  character : value;
}.

Record Range := {
  range_start : Position;
  range_end : Position;
}.

#[global] Instance Position_eq_dec : EqDecision Position.
Proof. solve_decision. Defined.

#[global] Instance Range_eq_dec : EqDecision Range.
Proof. solve_decision. Defined.

(** [vscode.SemanticTokens]: [resultId] is [string | undefined], [data] is a
    reference to a [Uint32Array]. *)
Record SemanticTokens := {
  resultId : option string;
  data : loc;
}.

(** [vscode.SemanticTokensEdit]; [start] and [deleteCount] are unsigned
    integers of the protocol, [data] is optional. *)
Record SemanticTokensEdit := {
  start : nat;
  deleteCount : nat;
  edit_data : option loc;
}.

Record SemanticTokensEdits := {
  edits_resultId : option string;
  edits : list SemanticTokensEdit;
}.

(** [vscode.SemanticTokens | vscode.SemanticTokensEdits] *)
Inductive TokensOrEdits :=
  | Full (tokens : SemanticTokens)
  | Delta (delta : SemanticTokensEdits).

Record SemanticTokensLegend := {
  tokenTypes : list string;
}.

Record SemanticTokensOptions := {
  legend : SemanticTokensLegend;
}.

Record ServerCapabilities := {
  semanticTokensProvider : option SemanticTokensOptions;
}.

(** ** The state of the module and of the part of the editor it touches *)

Record state := {
  inactiveCodeTokenTypeIndex : value;
  inactiveCodeTokenTypeReplaceIndex : value;
  lastTokens : gmap TextDocument SemanticTokens;
  lastInactiveRanges : gmap TextDocument (list Range);
  (** the typed arrays that exist *)
  heap : gmap loc (list N);
  (** [vscode.window.visibleTextEditors] *)
  visibleTextEditors : list TextEditor;
  (** the calls [editor.setDecorations(inactiveCodeDecorationType, ranges)]
      made so far, oldest first *)
  decorations : list (TextEditor * list Range);
}.

Definition set_inactiveCodeTokenTypeIndex (v : value) (st : state) : state :=
  {| inactiveCodeTokenTypeIndex := v;
     inactiveCodeTokenTypeReplaceIndex := inactiveCodeTokenTypeReplaceIndex st;
     lastTokens := lastTokens st;
     lastInactiveRanges := lastInactiveRanges st;
     heap := heap st;
     visibleTextEditors := visibleTextEditors st;
     decorations := decorations st |}.

Definition set_inactiveCodeTokenTypeReplaceIndex (v : value) (st : state) : state :=
  {| inactiveCodeTokenTypeIndex := inactiveCodeTokenTypeIndex st;
     inactiveCodeTokenTypeReplaceIndex := v;
     lastTokens := lastTokens st;
     lastInactiveRanges := lastInactiveRanges st;
     heap := heap st;
     visibleTextEditors := visibleTextEditors st;
     decorations := decorations st |}.

Definition set_lastTokens (m : gmap TextDocument SemanticTokens) (st : state) : state :=
  {| inactiveCodeTokenTypeIndex := inactiveCodeTokenTypeIndex st;
     inactiveCodeTokenTypeReplaceIndex := inactiveCodeTokenTypeReplaceIndex st;
     lastTokens := m;
     lastInactiveRanges := lastInactiveRanges st;
     heap := heap st;
     visibleTextEditors := visibleTextEditors st;
     decorations := decorations st |}.

Definition set_lastInactiveRanges (m : gmap TextDocument (list Range)) (st : state) : state :=
  {| inactiveCodeTokenTypeIndex := inactiveCodeTokenTypeIndex st;
     inactiveCodeTokenTypeReplaceIndex := inactiveCodeTokenTypeReplaceIndex st;
     lastTokens := lastTokens st;
     lastInactiveRanges := m;
     heap := heap st;
     visibleTextEditors := visibleTextEditors st;
     decorations := decorations st |}.

Definition set_heap (h : gmap loc (list N)) (st : state) : state :=
  {| inactiveCodeTokenTypeIndex := inactiveCodeTokenTypeIndex st;
     inactiveCodeTokenTypeReplaceIndex := inactiveCodeTokenTypeReplaceIndex st;
     lastTokens := lastTokens st;
     lastInactiveRanges := lastInactiveRanges st;
     heap := h;
     visibleTextEditors := visibleTextEditors st;
     decorations := decorations st |}.

Definition set_decorations (d : list (TextEditor * list Range)) (st : state) : state :=
  {| inactiveCodeTokenTypeIndex := inactiveCodeTokenTypeIndex st;
     inactiveCodeTokenTypeReplaceIndex := inactiveCodeTokenTypeReplaceIndex st;
     lastTokens := lastTokens st;
     lastInactiveRanges := lastInactiveRanges st;
     heap := heap st;
     visibleTextEditors := visibleTextEditors st;
     decorations := d |}.

(** The module as loaded: both [let]s unassigned, both maps empty. *)
Definition loaded (h : gmap loc (list N)) (views : list TextEditor) : state :=
  {| inactiveCodeTokenTypeIndex := Undefined;
     inactiveCodeTokenTypeReplaceIndex := Undefined;
     lastTokens := ∅;
     lastInactiveRanges := ∅;
     heap := h;
     visibleTextEditors := views;
     decorations := [] |}.

(** ** Computations: state passing with exceptions

    A thrown exception keeps the changes made before it. *)

Inductive exn :=
  | RangeError
  (** a reference to no array; the module never makes one *)
  | TypeError.

Inductive outcome (A : Type) :=
  | Ok (a : A)
  | Throw (e : exn).
Arguments Ok {A} a.
Arguments Throw {A} e.

Definition M (A : Type) : Type := state → outcome A * state.

#[global] Instance M_ret : MRet M := λ A a st, (Ok a, st).

#[global] Instance M_bind : MBind M := λ A B f m st,
  match m st with
  | (Ok a, st') => f a st'
  | (Throw e, st') => (Throw e, st')
  end.

#[global] Instance M_fmap : FMap M := λ A B f m, a ← m; mret (f a).

Definition throw {A} (e : exn) : M A := λ st, (Throw e, st).

Definition gets {A} (f : state → A) : M A := λ st, (Ok (f st), st).

Definition modify (f : state → state) : M unit := λ st, (Ok tt, f st).

(** [for (const x of xs) body], the loop-carried locals being [s]. *)
Fixpoint for_each {A S} (xs : list A) (body : A → S → M S) (s : S) : M S :=
  match xs with
  | [] => mret s
  | x :: xs' => s' ← body x s; for_each xs' body s'
  end.

(** ** Typed arrays *)

Definition contents (a : loc) : M (list N) :=
  λ st, match heap st !! a with
        | Some l => (Ok l, st)
        | None => (Throw TypeError, st)
        end.

(** [a.length] *)
Definition array_length (a : loc) : M nat :=
  l ← contents a; mret (length l).

Definition elem (l : list N) (i : nat) : value :=
  match l !! i with
  | Some n => Num n
  | None => Undefined
  end.

(** [a[i]] *)
Definition array_get (a : loc) (i : nat) : M value :=
  l ← contents a; mret (elem l i).

(** [a[i] = v]; a write outside the array is dropped. *)
Definition array_put (a : loc) (i : nat) (v : value) : M unit :=
  l ← contents a;
  modify (λ st, set_heap (<[a := <[i := to_uint32 v]> l]> (heap st)) st).

(** [new Uint32Array(n)]: zero-filled, at an address not in use.  A negative
    length throws. *)
Definition new_Uint32Array (n : Z) : M loc :=
  if (n <? 0)%Z then throw RangeError
  else λ st, let a := fresh (dom (heap st)) in
             (Ok a, set_heap (<[a := replicate (Z.to_nat n) 0%N]> (heap st)) st).

(** [a.subarray(b, e)] for [0 <= b]: the elements of the window, clamped to
    the array.  The module only passes the window on to [set] at once, so its
    elements are read here. *)
Definition subarray (a : loc) (b e : nat) : M (list N) :=
  l ← contents a; mret (take (e - b) (drop b l)).

(** The contents of an array after [xs] has been written at [w]. *)
Definition overwrite (cur : list N) (w : nat) (xs : list N) : list N :=
  take w cur ++ xs ++ drop (w + length xs) cur.

(** [dest.set(src, offset)] for the elements [src] of a [Uint32Array]; throws
    when they do not fit. *)
Definition array_set (dest : loc) (src : list N) (offset : nat) : M unit :=
  l ← contents dest;
  if bool_decide (length l < length src + offset) then throw RangeError
  else modify (λ st, set_heap
         (<[dest := overwrite l offset src]> (heap st)) st).

(** ** The module, function by function *)

(** [InactiveRegionsFeature.initialize] *)
Definition initialize (capabilities : ServerCapabilities) : M unit :=
  match semanticTokensProvider capabilities with
  | Some provider =>
      let tokenTypes := tokenTypes (legend provider) in
      for_each (seq 0 (length tokenTypes)) (λ i (_ : unit),
        if bool_decide (tokenTypes !! i = Some "comment"%string)
        then modify (set_inactiveCodeTokenTypeIndex (Num (N.of_nat i)))
        else mret tt) tt;;
      modify (set_inactiveCodeTokenTypeReplaceIndex (Num (N.of_nat (length tokenTypes))))
  | None => mret tt
  end.

Definition setDecorations (editor : TextEditor) (ranges : list Range) : M unit :=
  modify (λ st, set_decorations (decorations st ++ [(editor, ranges)]) st).

Definition applyInactiveRegions (editor : TextEditor) : M unit :=
  inactiveRanges ← gets (λ st, lastInactiveRanges st !! document editor);
  match inactiveRanges with
  | Some inactiveRanges => setDecorations editor inactiveRanges
  | None => mret tt
  end.

(** The listener that [activate] registers with
    [vscode.window.onDidChangeVisibleTextEditors]. *)
Definition onDidChangeVisibleTextEditors (editors : list TextEditor) : M unit :=
  for_each editors (λ editor (_ : unit), applyInactiveRegions editor) tt.

Definition applyInactiveRegionsToDocument (doc : TextDocument) : M unit :=
  visible ← gets visibleTextEditors;
  for_each visible (λ editor (_ : unit),
    if bool_decide (document editor = doc) then applyInactiveRegions editor
    else mret tt) tt.

(** The values of [tokenIndex] that satisfy [tokenIndex < data.length / 5],
    the division being exact: 0, 1, ... up to, not including, the length
    divided by 5 and rounded up. *)
Definition tokenIndices (len : nat) : list nat := seq 0 ((len + 4) / 5).

Definition replaceInactiveRanges (tokens : SemanticTokens) : M SemanticTokens :=
  let tokensData := data tokens in
  n ← array_length tokensData;
  data ← new_Uint32Array (Z.of_nat n);
  elements ← contents tokensData;
  array_set data elements 0;;
  len ← array_length data;
  for_each (tokenIndices len) (λ tokenIndex (_ : unit),
    let offset := 5 * tokenIndex in
    v ← array_get data (offset + 3);
    inactive ← gets inactiveCodeTokenTypeIndex;
    if loose_eq v inactive then
      replacement ← gets inactiveCodeTokenTypeReplaceIndex;
      array_put data (offset + 3) replacement
    else mret tt) tt;;
  mret {| resultId := resultId tokens; data := data |}.

(** [new vscode.Range(new vscode.Position(l, c), new vscode.Position(l, d))],
    as the arguments it is made of.  The constructors are the editor's; for
    numbers with [c <= d], as the lengths of a buffer give, they keep start
    and end as given. *)
Definition mkRange (l c d : value) : Range :=
  {| range_start := {| line := l; character := c |};
     range_end := {| line := l; character := d |} |}.

Definition computeInactiveRanges (tokens : SemanticTokens) : M (list Range) :=
  let data := data tokens in
  len ← array_length data;
  '(_, _, inactiveRanges) ← for_each (tokenIndices len)
    (λ tokenIndex '(lastLineNumber, lastStartCharacter, inactiveRanges),
      let offset := 5 * tokenIndex in
      deltaLine ← array_get data offset;
      deltaCharacter ← array_get data (offset + 1);
      let lineNumber := js_add lastLineNumber deltaLine in
      let startCharacter :=
        if is_zero deltaLine then js_add lastStartCharacter deltaCharacter
        else deltaCharacter in
      length ← array_get data (offset + 2);
      tokenTypeIndex ← array_get data (offset + 3);
      inactive ← gets inactiveCodeTokenTypeIndex;
      let inactiveRanges :=
        if loose_eq tokenTypeIndex inactive
        then inactiveRanges ++ [mkRange lineNumber startCharacter (js_add startCharacter length)]
        else inactiveRanges in
      mret (lineNumber, startCharacter, inactiveRanges))
    (Num 0, Num 0, []);
  mret inactiveRanges.

Definition provideDocumentSemanticTokens
    (document : TextDocument) (tokens : SemanticTokens) : M SemanticTokens :=
  modify (λ st, set_lastTokens (<[document := tokens]> (lastTokens st)) st);;
  ranges ← computeInactiveRanges tokens;
  modify (λ st, set_lastInactiveRanges (<[document := ranges]> (lastInactiveRanges st)) st);;
  applyInactiveRegionsToDocument document;;
  replaceInactiveRanges tokens.

Definition copy (dest : loc) (destOffset : nat) (src : loc) (srcOffset length : nat) : M unit :=
  window ← subarray src srcOffset (srcOffset + length);
  array_set dest window destOffset.

Definition applyDelta (prev : SemanticTokens) (delta : SemanticTokensEdits)
    : M SemanticTokens :=
  deltaLength ← for_each (edits delta) (λ edit (deltaLength : Z),
    inserted ← match edit_data edit with
               | Some d => array_length d
               | None => mret 0
               end;
    mret (deltaLength + (Z.of_nat inserted - Z.of_nat (deleteCount edit)))%Z) 0%Z;
  let srcData := data prev in
  srcLength ← array_length srcData;
  destData ← new_Uint32Array (Z.of_nat srcLength + deltaLength);
  '(readIndex, insertIndex) ← for_each (edits delta)
    (λ edit '(readIndex, insertIndex),
      let copyCount := (Z.of_nat (start edit) - Z.of_nat readIndex)%Z in
      insertIndex ←
        (if (0 <? copyCount)%Z then
           copy destData insertIndex srcData readIndex (Z.to_nat copyCount);;
           mret (insertIndex + Z.to_nat copyCount)
         else mret insertIndex);
      insertIndex ←
        match edit_data edit with
        | Some d =>
            n ← array_length d;
            copy destData insertIndex d 0 n;;
            mret (insertIndex + n)
        | None => mret insertIndex
        end;
      mret (start edit + deleteCount edit, insertIndex))
    (0, 0);
  (if bool_decide (readIndex < srcLength)
   then copy destData insertIndex srcData readIndex (srcLength - readIndex)
   else mret tt);;
  mret {| resultId := edits_resultId delta; data := destData |}.

(** The match is the type guard [isSemanticTokens]. *)
Definition provideDocumentSemanticTokensEdits
    (document : TextDocument) (previousResultId : string) (tokens : TokensOrEdits)
    : M TokensOrEdits :=
  match tokens with
  | Delta delta =>
      previousTokens ← gets (λ st, lastTokens st !! document);
      match previousTokens with
      | Some previousTokens =>
          if bool_decide (resultId previousTokens ≠ Some previousResultId)
          then mret tokens
          else
            tokens ← applyDelta previousTokens delta;
            Full <$> provideDocumentSemanticTokens document tokens
      | None => mret tokens
      end
  | Full tokens => Full <$> provideDocumentSemanticTokens document tokens
  end.

(** ** What the loops compute, as functions of the array contents *)

(** One round of the loop of [computeInactiveRanges] on the contents [B]. *)
Definition decode_step (inactive : value) (B : list N)
    (acc : value * value * list Range) (tokenIndex : nat) : value * value * list Range :=
  let '(lastLineNumber, lastStartCharacter, inactiveRanges) := acc in
  let offset := 5 * tokenIndex in
  let deltaLine := elem B offset in
  let deltaCharacter := elem B (offset + 1) in
  let lineNumber := js_add lastLineNumber deltaLine in
  let startCharacter :=
    if is_zero deltaLine then js_add lastStartCharacter deltaCharacter
    else deltaCharacter in
  let length := elem B (offset + 2) in
  let tokenTypeIndex := elem B (offset + 3) in
  (lineNumber, startCharacter,
   if loose_eq tokenTypeIndex inactive
   then inactiveRanges ++ [mkRange lineNumber startCharacter (js_add startCharacter length)]
   else inactiveRanges).

Definition decode (inactive : value) (B : list N) : list Range :=
  (foldl (decode_step inactive B) (Num 0, Num 0, []) (tokenIndices (length B))).2.

(** One round of the loop of [replaceInactiveRanges] on the contents of the
    copy. *)
Definition remap_step (inactive replacement : value) (l : list N) (tokenIndex : nat) : list N :=
  let offset := 5 * tokenIndex in
  if loose_eq (elem l (offset + 3)) inactive
  then <[offset + 3 := to_uint32 replacement]> l
  else l.

Definition remap_loop (inactive replacement : value) (B : list N) : list N :=
  foldl (remap_step inactive replacement) B (tokenIndices (length B)).

(** An edit with the contents of its [data] ([[]] when it has none). *)
Record edit := {
  e_start : nat;
  e_deleteCount : nat;
  e_insert : list N;
}.

Definition resolve (h : gmap loc (list N)) (e : SemanticTokensEdit) : option edit :=
  ins ← match edit_data e with
        | Some d => h !! d
        | None => Some []
        end;
  Some {| e_start := start e; e_deleteCount := deleteCount e; e_insert := ins |}.

(** What the second loop of [applyDelta] writes from the read cursor
    [readIndex] on, and where it leaves the read cursor. *)
Fixpoint copied (B : list N) (readIndex : nat) (es : list edit) : list N :=
  match es with
  | [] => []
  | e :: es' =>
      take (e_start e - readIndex) (drop readIndex B) ++ e_insert e
        ++ copied B (e_start e + e_deleteCount e) es'
  end.

Fixpoint readEnd (readIndex : nat) (es : list edit) : nat :=
  match es with
  | [] => readIndex
  | e :: es' => readEnd (e_start e + e_deleteCount e) es'
  end.

(** The loop, then the copy of what is left of [B]. *)
Definition patched (B : list N) (es : list edit) : list N :=
  copied B 0 es ++ drop (readEnd 0 es) B.

(** The address [new Uint32Array] takes in [st], and [st] once the array
    there holds [cur]. *)
Definition dest (st : state) : loc := fresh (dom (heap st)).

Definition allocated (st : state) (cur : list N) : state :=
  set_heap (<[dest st := cur]> (heap st)) st.

(** ** The words of the specification *)

(** A token run: one group of five integers. *)
Record token := {
  deltaLine : N;
  deltaStartChar : N;
  tokenLength : N;
  typeIndex : N;
  modifierBitset : N;
}.

(** The 5-tuples of a buffer, in order. *)
Fixpoint tuples (B : list N) : list token :=
  match B with
  | a :: b :: c :: d :: e :: rest =>
      {| deltaLine := a; deltaStartChar := b; tokenLength := c;
         typeIndex := d; modifierBitset := e |} :: tuples rest
  | _ => []
  end.

Definition untuple (t : token) : list N :=
  [deltaLine t; deltaStartChar t; tokenLength t; typeIndex t; modifierBitset t].

(** The absolute range of every tuple: the running line and start character
    begin at the given values and move on with every tuple. *)
Fixpoint tokenRanges (runningLine runningStartChar : N) (ts : list token) : list Range :=
  match ts with
  | [] => []
  | t :: ts' =>
      let line := (runningLine + deltaLine t)%N in
      let startChar :=
        if (deltaLine t =? 0)%N then (runningStartChar + deltaStartChar t)%N
        else deltaStartChar t in
      mkRange (Num line) (Num startChar) (Num (startChar + tokenLength t))
        :: tokenRanges line startChar ts'
  end.

(** [typeIndex == inactiveIndex] *)
Definition isInactive (inactive : value) (t : token) : bool :=
  loose_eq (Num (typeIndex t)) inactive.

(** Decoding: the ranges of the tuples of the inactive category. *)
Definition inactiveTokenRanges (inactive : value) (ts : list token) : list Range :=
  (filter (λ p, isInactive inactive p.1 = true) (zip ts (tokenRanges 0 0 ts))).*2.

(** The tuple positions of the inactive category. *)
Definition inactivePositions (inactive : value) (ts : list token) : list nat :=
  filter (λ i, from_option (isInactive inactive) false (ts !! i) = true)
    (seq 0 (length ts)).

(** Remapping: every [typeIndex] equal to the inactive index becomes the
    sentinel, every other integer stays. *)
Definition remap (inactive : value) (sentinel : N) (B : list N) : list N :=
  imap (λ j x, if bool_decide (j mod 5 = 3) && loose_eq (Num x) inactive
               then sentinel else x) B.

(** [a.splice(start, deleteCount, ...insertData)] on a sequence. *)
Definition splice (l : list N) (e : edit) : list N :=
  take (e_start e) l ++ e_insert e ++ drop (e_start e + e_deleteCount e) l.

(** The edits performed in order, each on the sequence the ones before it
    have left. *)
Definition splice_in_order (B : list N) (es : list edit) : list N :=
  foldl splice B es.

(** The edits performed from the last to the first, so that every offset
    still means a place of [B]. *)
Definition splice_from_last (B : list N) (es : list edit) : list N :=
  foldr (λ e l, splice l e) B es.

(** Σ (insertData.length − deleteCount) *)
Definition deltaLength (es : list edit) : Z :=
  foldr (λ e z, (Z.of_nat (length (e_insert e)) - Z.of_nat (e_deleteCount e) + z)%Z) 0%Z es.

(** Ascending by [start] and non-overlapping: every edit starts at or after
    the end of what the one before it deletes ([lo] for the first). *)
Fixpoint ascending (lo : nat) (es : list edit) : Prop :=
  match es with
  | [] => True
  | e :: es' => lo ≤ e_start e ∧ ascending (e_start e + e_deleteCount e) es'
  end.

(** Every edit deletes inside a buffer of length [len]. *)
Definition within (len : nat) (es : list edit) : Prop :=
  Forall (λ e, e_start e + e_deleteCount e ≤ len) es.

(** The [resultId] of a payload. *)
Definition payload_resultId (p : TokensOrEdits) : option string :=
  match p with
  | Full tokens => resultId tokens
  | Delta delta => edits_resultId delta
  end.

(** The rendering requests an event with the views [editors] asks for: one
    per view whose document has cached ranges. *)
Definition requests (cache : gmap TextDocument (list Range)) (editors : list TextEditor)
    : list (TextEditor * list Range) :=
  omap (λ editor, (editor,.) <$> cache !! document editor) editors.

(** ** What the functions leave *)

(** The index the loop leaves in [inactiveCodeTokenTypeIndex], [v] being
    there before. *)
Definition lastComment (tokenTypes : list string) (v : value) (n : nat) : value :=
  foldl (λ v i, if bool_decide (tokenTypes !! i = Some "comment"%string)
                then Num (N.of_nat i) else v) v (seq 0 n).

(** The state [provideDocumentSemanticTokens] leaves. *)
Definition processed (st : state) (doc : TextDocument) (tokens : SemanticTokens)
    (B : list N) : state :=
  let ranges := decode (inactiveCodeTokenTypeIndex st) B in
  {| inactiveCodeTokenTypeIndex := inactiveCodeTokenTypeIndex st;
     inactiveCodeTokenTypeReplaceIndex := inactiveCodeTokenTypeReplaceIndex st;
     lastTokens := <[doc := tokens]> (lastTokens st);
     lastInactiveRanges := <[doc := ranges]> (lastInactiveRanges st);
     heap := <[dest st :=
                 remap (inactiveCodeTokenTypeIndex st)
                   (to_uint32 (inactiveCodeTokenTypeReplaceIndex st)) B]> (heap st);
     visibleTextEditors := visibleTextEditors st;
     decorations :=
       decorations st
       ++ ((., ranges) <$> filter (λ editor, document editor = doc) (visibleTextEditors st)) |}.

(** ** Examples *)

Definition buffer_example : list N :=
  [0; 5; 3; 7; 0;  0; 3; 4; 7; 0;  1; 2; 6; 7; 0]%N.

Definition ranges_example : list Range :=
  [mkRange (Num 0) (Num 5) (Num 8);
   mkRange (Num 0) (Num 8) (Num 12);
   mkRange (Num 1) (Num 2) (Num 8)].

Definition tokens_example : SemanticTokens :=
  {| resultId := Some "1"%string; data := 1%positive |}.

Definition view_example : TextEditor := {| editor_id := 0; document := 4 |}.

(** A session whose legend has 23 categories, ['comment'] being the eighth;
    one array exists and one view is visible. *)
Definition session_example : state :=
  {| inactiveCodeTokenTypeIndex := Num 7;
     inactiveCodeTokenTypeReplaceIndex := Num 23;
     lastTokens := ∅;
     lastInactiveRanges := ∅;
     heap := {[ 1%positive := buffer_example ]};
     visibleTextEditors := [view_example];
     decorations := [] |}.

Definition ten : list N := [1; 2; 3; 4; 5; 6; 7; 8; 9; 10]%N.

Definition five : list N := [91; 92; 93; 94; 95]%N.

(** Insert [five] at 0, then delete the second tuple. *)
Definition delta_example : SemanticTokensEdits :=
  {| edits_resultId := Some "2"%string;
     edits := [ {| start := 0; deleteCount := 0; edit_data := Some 2%positive |};
                {| start := 5; deleteCount := 5; edit_data := None |} ] |}.

Definition edits_example : list edit :=
  [ {| e_start := 0; e_deleteCount := 0; e_insert := five |};
    {| e_start := 5; e_deleteCount := 5; e_insert := [] |} ].

Definition store_example : state :=
  loaded {[ 1%positive := ten; 2%positive := five ]} [].

(** A session in which document 4 has been processed under the id ["1"]. *)
Definition cached_example : state := processed session_example 4 tokens_example buffer_example.

Definition malformed_example : list N := [0; 5; 3; 7]%N.

Definition malformed_tokens : SemanticTokens :=
  {| resultId := Some "2"%string; data := 9%positive |}.

(** Document 4 is cached; one more array, of length 4, exists. *)
Definition before_malformed : state :=
  set_heap (<[ 9%positive := malformed_example ]> (heap cached_example)) cached_example.

(** The session of the example with ['comment'] at index 9. *)
Definition other_session : state := set_inactiveCodeTokenTypeIndex (Num 9) session_example.

(** A legend of 23 names, the eighth being ['comment']. *)
Definition legend_example : SemanticTokensLegend :=
  {| tokenTypes :=
       ["variable"; "variable"; "parameter"; "function"; "method"; "function";
        "property"; "comment"; "class"; "interface"; "enum"; "enumMember"; "type";
        "type"; "unknown"; "namespace"; "typeParameter"; "concept"; "type"; "macro";
        "modifier"; "operator"; "bracket"]%string |}.

Definition with_legend : ServerCapabilities :=
  {| semanticTokensProvider := Some {| legend := legend_example |} |}.

Definition without_legend : ServerCapabilities :=
  {| semanticTokensProvider := None |}.

Definition other_view : TextEditor := {| editor_id := 1; document := 5 |}.

(** Delete the second tuple of the buffer of the example. *)
Definition next_delta : SemanticTokensEdits :=
  {| edits_resultId := Some "2"%string;
     edits := [ {| start := 5; deleteCount := 5; edit_data := None |} ] |}.

Definition after_delta : outcome TokensOrEdits * state :=
  provideDocumentSemanticTokensEdits 4 "1" (Delta next_delta) cached_example.

(** ** Notions for the further properties *)

(** Delete 20 integers of a buffer that has 15. *)
Definition overlong_delta : SemanticTokensEdits :=
  {| edits_resultId := Some "2"%string;
     edits := [ {| start := 0; deleteCount := 20; edit_data := None |} ] |}.

(** Insert the 15 integers of array 1 at offset 20 of a buffer that has
    15. *)
Definition beyond_delta : SemanticTokensEdits :=
  {| edits_resultId := Some "2"%string;
     edits := [ {| start := 20; deleteCount := 0; edit_data := Some 1%positive |} ] |}.

(** Document 4 is cached and two views are visible, one of document 4 and
    one of document 5. *)
Definition two_views : state :=
  {| inactiveCodeTokenTypeIndex := Num 7;
     inactiveCodeTokenTypeReplaceIndex := Num 23;
     lastTokens := lastTokens cached_example;
     lastInactiveRanges := lastInactiveRanges cached_example;
     heap := <[ 9%positive := malformed_example ]> (heap cached_example);
     visibleTextEditors := [view_example; other_view];
     decorations := [] |}.

(** The session of the example with an array of one tuple and two
    integers. *)
Definition with_partial_tuple : state :=
  set_heap {[ 1%positive := [0; 5; 3; 7; 0;  2; 1]%N ]} session_example.

Definition empty_delta : SemanticTokensEdits :=
  {| edits_resultId := Some "2"%string; edits := [] |}.


(** [m] leaves the state as it finds it, whether it returns or throws. *)
Definition readonly {A} (m : M A) : Prop :=
  ∀ st o st', m st = (o, st') → st' = st.

(** [m] keeps the states of [I] in [I], whether it returns or throws. *)
Definition preserves {A} (I : state → Prop) (m : M A) : Prop :=
  ∀ st o st', I st → m st = (o, st') → I st'.

(** [st'] is [st], or [st] with one array more, at the address
    [new Uint32Array] takes in [st]. *)
Definition at_most_allocated (st st' : state) : Prop :=
  st' = st ∨ ∃ cur, st' = allocated st cur.

(** A tuple as remapping leaves it. *)
Definition retype (inactive : value) (sentinel : N) (t : token) : token :=
  if isInactive inactive t
  then {| deltaLine := deltaLine t; deltaStartChar := deltaStartChar t;
          tokenLength := tokenLength t; typeIndex := sentinel;
          modifierBitset := modifierBitset t |}
  else t.

(** A range on one line, between numbers, its start not after its end. *)
Definition one_line (r : Range) : Prop :=
  ∃ l c d, r = mkRange (Num l) (Num c) (Num d) ∧ (c ≤ d)%N.

(** The position [p] is at or before [q], both being numbers. *)
Definition position_le (p q : Position) : Prop :=
  match line p, character p, line q, character q with
  | Num l1, Num c1, Num l2, Num c2 => (l1 < l2 ∨ (l1 = l2 ∧ c1 ≤ c2))%N
  | _, _, _, _ => False
  end.

(** [r1] starts at or before [r2]. *)
Definition starts_le (r1 r2 : Range) : Prop :=
  position_le (range_start r1) (range_start r2).

(** Every range of [rs] starts at or before the ranges after it. *)
Definition ascending_starts (rs : list Range) : Prop :=
  ∀ i j r1 r2, i ≤ j → rs !! i = Some r1 → rs !! j = Some r2 → starts_le r1 r2.

(** ** Running the computations *)

Section run.
Context {A B : Type}.
Implicit Types (m : M A) (f : A → M B) (st : state).

Lemma bind_run m f st a st' :
  m st = (Ok a, st') → (m ≫= f) st = f a st'.
Proof. intros Hm. unfold mbind, M_bind. by rewrite Hm. Qed.

Lemma bind_throw m f st e st' :
  m st = (Throw e, st') → (m ≫= f) st = (Throw e, st').
Proof. intros Hm. unfold mbind, M_bind. by rewrite Hm. Qed.

Lemma bind_inv m f st b st' :
  (m ≫= f) st = (Ok b, st') →
  ∃ a st1, m st = (Ok a, st1) ∧ f a st1 = (Ok b, st').
Proof.
  unfold mbind, M_bind. destruct (m st) as [[a|e] st1]; [eauto | done].
Qed.

Lemma fmap_run (g : A → B) m st a st' :
  m st = (Ok a, st') → (g <$> m) st = (Ok (g a), st').
Proof. intros Hm. unfold fmap, M_fmap. by rewrite (bind_run _ _ _ _ _ Hm). Qed.

Lemma fmap_inv (g : A → B) m st b st' :
  (g <$> m) st = (Ok b, st') → ∃ a, m st = (Ok a, st') ∧ b = g a.
Proof.
  unfold fmap, M_fmap. intros (a & st1 & Hm & Hr)%bind_inv.
  inversion Hr; subst. eauto.
Qed.
End run.

(** A loop whose rounds are described by [step] on an abstract state [T],
    from which the locals [r] and the state [σ] are read off. *)
Lemma for_each_fold {A S T} (xs : list A) (body : A → S → M S)
    (step : T → A → T) (r : T → S) (σ : T → state) :
  (∀ x t, body x (r t) (σ t) = (Ok (r (step t x)), σ (step t x))) →
  ∀ t, for_each xs body (r t) (σ t) = (Ok (r (foldl step t xs)), σ (foldl step t xs)).
Proof.
  intros Hbody. induction xs as [|x xs IH]; intros t; simpl; [done|].
  rewrite (bind_run _ _ _ _ _ (Hbody x t)). apply IH.
Qed.

Section arrays.
Implicit Types (st : state) (a : loc) (l : list N).

Lemma contents_run st a l :
  heap st !! a = Some l → contents a st = (Ok l, st).
Proof. intros Ha. unfold contents. by rewrite Ha. Qed.

Lemma array_length_run st a l :
  heap st !! a = Some l → array_length a st = (Ok (length l), st).
Proof. intros Ha. unfold array_length. by rewrite (bind_run _ _ _ _ _ (contents_run _ _ _ Ha)). Qed.

Lemma array_get_run st a l i :
  heap st !! a = Some l → array_get a i st = (Ok (elem l i), st).
Proof. intros Ha. unfold array_get. by rewrite (bind_run _ _ _ _ _ (contents_run _ _ _ Ha)). Qed.

Lemma array_put_run st a l i v :
  heap st !! a = Some l →
  array_put a i v st = (Ok tt, set_heap (<[a := <[i := to_uint32 v]> l]> (heap st)) st).
Proof. intros Ha. unfold array_put. by rewrite (bind_run _ _ _ _ _ (contents_run _ _ _ Ha)). Qed.

Lemma subarray_run st a l b e :
  heap st !! a = Some l → subarray a b e st = (Ok (take (e - b) (drop b l)), st).
Proof. intros Ha. unfold subarray. by rewrite (bind_run _ _ _ _ _ (contents_run _ _ _ Ha)). Qed.

Lemma array_set_run st a l src offset :
  heap st !! a = Some l → length src + offset ≤ length l →
  array_set a src offset st =
    (Ok tt, set_heap (<[a := overwrite l offset src]> (heap st)) st).
Proof.
  intros Ha Hfit. unfold array_set.
  rewrite (bind_run _ _ _ _ _ (contents_run _ _ _ Ha)).
  rewrite bool_decide_eq_false_2; [done | lia].
Qed.

Lemma new_Uint32Array_run st (n : nat) :
  new_Uint32Array (Z.of_nat n) st =
    (Ok (dest st), allocated st (replicate n 0%N)).
Proof.
  unfold new_Uint32Array. destruct (Z.ltb_spec (Z.of_nat n) 0); [lia|].
  by rewrite Nat2Z.id.
Qed.

Lemma dest_None st : heap st !! dest st = None.
Proof. unfold dest. apply not_elem_of_dom, is_fresh. Qed.

Lemma dest_ne st a l : heap st !! a = Some l → a ≠ dest st.
Proof. intros Ha ->. by rewrite dest_None in Ha. Qed.

Lemma lookup_allocated st cur d l :
  heap st !! d = Some l → heap (allocated st cur) !! d = Some l.
Proof.
  intros Hd. unfold allocated, dest. simpl.
  rewrite lookup_insert_ne; [done|]. symmetry. eapply dest_ne, Hd.
Qed.

Lemma lookup_allocated_dest st cur : heap (allocated st cur) !! dest st = Some cur.
Proof. unfold allocated. simpl. apply lookup_insert_eq. Qed.

Lemma allocated_again st cur cur' :
  set_heap (<[dest st := cur']> (heap (allocated st cur))) (allocated st cur)
  = allocated st cur'.
Proof. unfold allocated, set_heap. simpl. f_equal. apply insert_insert_eq. Qed.

Lemma tokenIndices_spec len i : i ∈ tokenIndices len ↔ 5 * i < len.
Proof.
  unfold tokenIndices. rewrite elem_of_seq.
  pose proof (Nat.div_mod_eq (len + 4) 5).
  pose proof (Nat.mod_upper_bound (len + 4) 5). lia.
Qed.
End arrays.

(** *** Writing into the destination *)

Lemma overwrite_nil cur w : overwrite cur w [] = cur.
Proof. unfold overwrite. simpl. rewrite Nat.add_0_r. apply take_drop. Qed.

Lemma length_overwrite cur w xs :
  w + length xs ≤ length cur → length (overwrite cur w xs) = length cur.
Proof.
  intros Hfit. unfold overwrite.
  rewrite !length_app, length_take, length_drop. lia.
Qed.

Lemma overwrite_app cur w xs ys :
  w + length xs + length ys ≤ length cur →
  overwrite (overwrite cur w xs) (w + length xs) ys = overwrite cur w (xs ++ ys).
Proof.
  intros Hfit. unfold overwrite.
  assert (length (take w cur) = w) as Hw by (rewrite length_take; lia).
  rewrite (app_assoc (take w cur) xs).
  rewrite take_app_length' by (rewrite length_app; lia).
  rewrite (drop_app_add' _ _ (w + length xs) (length ys)) by (rewrite length_app; lia).
  rewrite drop_drop, length_app, <- !app_assoc.
  by rewrite Nat.add_assoc.
Qed.

Lemma overwrite_all cur xs : length xs = length cur → overwrite cur 0 xs = xs.
Proof.
  intros Hlen. unfold overwrite. simpl.
  rewrite drop_ge by lia. apply app_nil_r.
Qed.

(** ** The functions of the module in terms of the array contents *)

Lemma computeInactiveRanges_run st tokens B :
  heap st !! data tokens = Some B →
  computeInactiveRanges tokens st = (Ok (decode (inactiveCodeTokenTypeIndex st) B), st).
Proof.
  intros HB. unfold computeInactiveRanges.
  rewrite (bind_run _ _ _ _ _ (array_length_run _ _ _ HB)).
  erewrite bind_run; last first.
  { apply (for_each_fold _ _ (decode_step (inactiveCodeTokenTypeIndex st) B) id (λ _, st)).
    intros i [[lastLine lastChar] ranges]. simpl.
    rewrite !(bind_run _ _ _ _ _ (array_get_run _ _ _ _ HB)). done. }
  unfold decode, id.
  by destruct (foldl _ _ _) as [[? ?] ?].
Qed.

Lemma replaceInactiveRanges_run st tokens B :
  heap st !! data tokens = Some B →
  replaceInactiveRanges tokens st =
    (Ok {| resultId := resultId tokens; data := dest st |},
     allocated st (remap_loop (inactiveCodeTokenTypeIndex st)
                     (inactiveCodeTokenTypeReplaceIndex st) B)).
Proof.
  intros HB. unfold replaceInactiveRanges.
  rewrite (bind_run _ _ _ _ _ (array_length_run _ _ _ HB)).
  rewrite (bind_run _ _ _ _ _ (new_Uint32Array_run _ _)).
  rewrite (bind_run _ _ _ _ _ (contents_run _ _ _ (lookup_allocated _ _ _ _ HB))).
  erewrite bind_run; last first.
  { apply array_set_run; [apply lookup_allocated_dest|]. rewrite length_replicate. lia. }
  rewrite allocated_again, overwrite_all by (by rewrite length_replicate).
  rewrite (bind_run _ _ _ _ _ (array_length_run _ _ _ (lookup_allocated_dest _ _))).
  erewrite bind_run; last first.
  { apply (for_each_fold _ _
      (remap_step (inactiveCodeTokenTypeIndex st) (inactiveCodeTokenTypeReplaceIndex st))
      (λ _, tt) (allocated st)).
    intros i l. simpl.
    rewrite (bind_run _ _ _ _ _ (array_get_run _ _ _ _ (lookup_allocated_dest _ _))).
    rewrite (bind_run (gets _) _ _ _ _ eq_refl). simpl.
    unfold remap_step. destruct (loose_eq _ _); [|done].
    rewrite (bind_run (gets _) _ _ _ _ eq_refl).
    rewrite (array_put_run _ _ _ _ _ (lookup_allocated_dest _ _)).
    by rewrite allocated_again. }
  done.
Qed.

(** *** Lengths of what [applyDelta] writes *)

Lemma ascending_readEnd r es : ascending r es → r ≤ readEnd r es.
Proof.
  revert r. induction es as [|e es IH]; intros r; simpl; [lia|].
  intros [Hr Hes]. specialize (IH _ Hes). lia.
Qed.

Lemma within_readEnd len r es : r ≤ len → within len es → readEnd r es ≤ len.
Proof.
  intros Hr Hes. revert r Hr.
  induction Hes as [|e es He _ IH]; intros r Hr; simpl; [done|]. by apply IH.
Qed.

Lemma length_copied B r es :
  ascending r es → within (length B) es →
  (Z.of_nat (length (copied B r es))
   = Z.of_nat (readEnd r es) - Z.of_nat r + deltaLength es)%Z.
Proof.
  intros Hasc Hin. revert r Hasc.
  induction Hin as [|e es He _ IH]; intros r; simpl; [lia|].
  intros [Hr Hes]. specialize (IH _ Hes).
  rewrite !length_app, length_take, length_drop. lia.
Qed.

Lemma length_patched B es :
  ascending 0 es → within (length B) es →
  (Z.of_nat (length (patched B es)) = Z.of_nat (length B) + deltaLength es)%Z.
Proof.
  intros Hasc Hin. unfold patched.
  pose proof (length_copied B 0 es Hasc Hin).
  pose proof (within_readEnd (length B) 0 es (Nat.le_0_l _) Hin).
  rewrite length_app, length_drop. lia.
Qed.

(** *** The two loops of [applyDelta] *)

Section applyDelta_loops.
Variables (st : state) (src : loc) (B : list N).
Hypothesis HB : heap st !! src = Some B.

Lemma deltaLength_loop raw es (z : Z) :
  Forall2 (λ r e, resolve (heap st) r = Some e) raw es →
  for_each raw (λ edit (deltaLength : Z),
    inserted ← match edit_data edit with
               | Some d => array_length d
               | None => mret 0
               end;
    mret (deltaLength + (Z.of_nat inserted - Z.of_nat (deleteCount edit)))%Z) z st
  = (Ok (z + deltaLength es)%Z, st).
Proof.
  intros Hres. revert z.
  induction Hres as [|r e raw es Hr _ IH]; intros z; simpl.
  { by rewrite Z.add_0_r. }
  unfold resolve in Hr.
  destruct (edit_data r) as [d|]; simpl in Hr.
  - destruct (heap st !! d) as [ins|] eqn:Hd; [|done].
    simpl in Hr. injection Hr as <-. simpl.
    erewrite bind_run; last first.
    { erewrite bind_run; [done|]. by apply array_length_run. }
    rewrite IH. do 2 f_equal. lia.
  - injection Hr as <-. simpl.
    erewrite bind_run; last first.
    { erewrite bind_run; done. }
    rewrite IH. do 2 f_equal. lia.
Qed.

Lemma copy_run cur w d l r n :
  heap st !! d = Some l →
  w + length (take n (drop r l)) ≤ length cur →
  copy (dest st) w d r n (allocated st cur) = (Ok tt,  allocated st (overwrite cur w (take n (drop r l)))).
Proof.
  intros Hd Hfit. unfold copy.
  rewrite (bind_run _ _ _ _ _ (subarray_run _ _ _ _ _ (lookup_allocated _ cur _ _ Hd))).
  replace (r + n - r) with n by lia.
  rewrite (array_set_run _ _ _ _ _ (lookup_allocated_dest _ cur)) by lia.
  by rewrite allocated_again.
Qed.

Lemma copy_loop raw es r w cur :
  Forall2 (λ r e, resolve (heap st) r = Some e) raw es →
  ascending r es → within (length B) es →
  w + length (copied B r es) ≤ length cur →
  for_each raw
    (λ edit '(readIndex, insertIndex),
      let copyCount := (Z.of_nat (start edit) - Z.of_nat readIndex)%Z in
      insertIndex ←
        (if (0 <? copyCount)%Z then
           copy (dest st) insertIndex src readIndex (Z.to_nat copyCount);;
           mret (insertIndex + Z.to_nat copyCount)
         else mret insertIndex);
      insertIndex ←
        match edit_data edit with
        | Some d =>
            n ← array_length d;
            copy (dest st) insertIndex d 0 n;;
            mret (insertIndex + n)
        | None => mret insertIndex
        end;
      mret (start edit + deleteCount edit, insertIndex))
    (r, w) (allocated st cur)
  = (Ok (readEnd r es, w + length (copied B r es)),  allocated st (overwrite cur w (copied B r es))).
Proof.
  intros Hres. revert r w cur.
  induction Hres as [|ed e raw es Hed _ IH]; intros r w cur Hasc Hin Hfit; simpl.
  { by rewrite overwrite_nil, Nat.add_0_r. }
  destruct Hasc as [Hr Hasc]. apply Forall_cons in Hin as [He Hin].
  simpl in Hfit. rewrite !length_app in Hfit.
  set (X := take (e_start e - r) (drop r B)) in *.
  assert (length X = e_start e - r) as HX.
  { unfold X. rewrite length_take, length_drop. lia. }
  unfold resolve in Hed.
  assert (start ed = e_start e ∧ deleteCount ed = e_deleteCount e) as [Hs Hd].
  { destruct (edit_data ed) as [d|]; simpl in Hed;
      [destruct (heap st !! d); [|done]|]; simpl in Hed; by injection Hed as <-. }
  rewrite Hs, Hd.
  erewrite bind_run; last first.
  (* the unmodified run [readIndex, start) *)
  erewrite bind_run with (a := w + length X) (st' :=  allocated st (overwrite cur w X)); last first.
  { destruct (Z.ltb_spec 0 (Z.of_nat (e_start e) - Z.of_nat r)) as [Hpos|Hpos].
    - replace (Z.to_nat (Z.of_nat (e_start e) - Z.of_nat r)) with (e_start e - r) by lia.
      assert (w + length (take (e_start e - r) (drop r B)) ≤ length cur) as HfitX.
      { fold X. lia. }
      rewrite (bind_run _ _ _ _ _ (copy_run cur w src B r _ HB HfitX)).
      fold X. by rewrite HX.
    - assert (X = []) as -> by (apply nil_length_inv; lia).
      by rewrite overwrite_nil, Nat.add_0_r. }
  (* the inserted data *)
  erewrite bind_run with (a := w + length X + length (e_insert e))
    (st' :=  allocated st (overwrite cur w (X ++ e_insert e))); last first.
  { destruct (edit_data ed) as [d|]; simpl in Hed.
    - destruct (heap st !! d) as [ins|] eqn:Hins; [|done].
      simpl in Hed. injection Hed as <-. simpl in *.
      assert (length (overwrite cur w X) = length cur) as Hlen
        by (apply length_overwrite; lia).
      rewrite (bind_run _ _ _ _ _ (array_length_run _ _ _ (lookup_allocated _ _ _ _ Hins))).
      assert (take (length ins) (drop 0 ins) = ins) as Hwin
        by (rewrite drop_0; apply firstn_all).
      rewrite (bind_run _ _ _ _ _
        (copy_run (overwrite cur w X) (w + length X) d ins 0 _ Hins
           ltac:(rewrite Hwin; lia))).
      rewrite Hwin, overwrite_app by lia. done.
    - injection Hed as <-. simpl. by rewrite app_nil_r, Nat.add_0_r. }
  { done. }
  simpl.
  rewrite IH; [|done|done|].
  - replace (w + length X + length (e_insert e)) with (w + length (X ++ e_insert e))
      by (rewrite length_app; lia).
    rewrite overwrite_app by (rewrite length_app; lia).
    rewrite <- !app_assoc, !length_app. do 3 f_equal. lia.
  - rewrite length_overwrite by (rewrite length_app; lia). lia.
Qed.
End applyDelta_loops.

Lemma applyDelta_run st prev delta B es :
  heap st !! data prev = Some B →
  mapM (resolve (heap st)) (edits delta) = Some es →
  ascending 0 es → within (length B) es →
  applyDelta prev delta st =
    (Ok {| resultId := edits_resultId delta; data := dest st |},
     allocated st (patched B es)).
Proof.
  intros HB Hres%mapM_Some Hasc Hin. unfold applyDelta.
  pose proof (length_patched B es Hasc Hin) as Hlen.
  pose proof (length_copied B 0 es Hasc Hin) as Hcop.
  pose proof (within_readEnd (length B) 0 es (Nat.le_0_l _) Hin) as Hend.
  rewrite (bind_run _ _ _ _ _ (deltaLength_loop st _ _ 0%Z Hres)).
  rewrite (bind_run _ _ _ _ _ (array_length_run _ _ _ HB)).
  rewrite Z.add_0_l, <- Hlen.
  rewrite (bind_run _ _ _ _ _ (new_Uint32Array_run _ _)).
  set (zeros := replicate (length (patched B es)) 0%N).
  assert (length zeros = length (patched B es)) as Hz by apply length_replicate.
  assert (length (patched B es) = length (copied B 0 es) + (length B - readEnd 0 es)) as Hsplit.
  { unfold patched. by rewrite length_app, length_drop. }
  rewrite (bind_run _ _ _ _ _
    (copy_loop st (data prev) B HB _ _ 0 0 zeros Hres Hasc Hin ltac:(lia))).
  simpl.
  destruct (bool_decide_reflect (readEnd 0 es < length B)) as [Hlt|Hge].
  - erewrite bind_run; last first.
    { apply (copy_run st (overwrite zeros 0 (copied B 0 es)) _ (data prev) B); [done|].
      rewrite length_overwrite, length_take, length_drop by (simpl; lia). lia. }
    rewrite overwrite_app by (rewrite length_take, length_drop; simpl; lia).
    rewrite firstn_all2 by (rewrite length_drop; lia).
    fold (patched B es). by rewrite overwrite_all.
  - rewrite (bind_run (mret _) _ _ _ _ eq_refl).
    assert (patched B es = copied B 0 es) as Hp.
    { unfold patched. rewrite drop_ge by lia. apply app_nil_r. }
    rewrite overwrite_all by (rewrite <- Hp; done). by rewrite Hp.
Qed.

(** *** What [applyDelta] writes, as splices *)

Lemma splice_from_last_copied B r es :
  ascending r es → within (length B) es → r ≤ length B →
  splice_from_last B es = take r B ++ copied B r es ++ drop (readEnd r es) B.
Proof.
  intros Hasc Hin. revert r Hasc.
  induction Hin as [|e es He _ IH]; intros r; simpl.
  { intros _ _. by rewrite take_drop. }
  intros [Hr Hasc] HrB.
  rewrite (IH _ Hasc He). unfold splice.
  assert (length (take (e_start e + e_deleteCount e) B) = e_start e + e_deleteCount e) as Hlen
    by (rewrite length_take; lia).
  rewrite take_app_le, take_take by lia.
  rewrite drop_app_length' by done.
  rewrite Nat.min_l by lia.
  replace (take (e_start e) B) with (take (r + (e_start e - r)) B) by (f_equal; lia).
  by rewrite <- take_take_drop, <- !app_assoc.
Qed.

Lemma patched_splice_from_last B es :
  ascending 0 es → within (length B) es → patched B es = splice_from_last B es.
Proof.
  intros Hasc Hin.
  by rewrite (splice_from_last_copied B 0 es Hasc Hin (Nat.le_0_l _)).
Qed.

(** *** Buffers as sequences of tuples *)

Lemma length_mod5 (B : list N) : length B mod 5 = 0 → ∃ n, length B = 5 * n.
Proof. intros H. exists (length B / 5). by apply Nat.Div0.div_exact. Qed.

Lemma tokenIndices_whole n : tokenIndices (5 * n) = seq 0 n.
Proof.
  unfold tokenIndices. f_equal.
  rewrite (Nat.mul_comm 5 n), Nat.div_add_l by done. simpl. lia.
Qed.

Lemma tuples_untuple (B : list N) n :
  length B = 5 * n → B = tuples B ≫= untuple ∧ length (tuples B) = n.
Proof.
  revert B. induction n as [|n IH]; intros B HB.
  { destruct B; [done | simpl in HB; lia]. }
  destruct B as [|a [|b [|c [|d [|e rest]]]]]; simpl in HB; try lia.
  destruct (IH rest) as [Hrest Hlen]; [lia|].
  split; [|simpl; by rewrite Hlen].
  rewrite Hrest at 1. reflexivity.
Qed.

Lemma elem_app_r (pre l : list N) k j :
  length pre = k → elem (pre ++ l) (k + j) = elem l j.
Proof. intros <-. unfold elem. by rewrite lookup_app_r, Nat.add_comm, Nat.add_sub by lia. Qed.

Lemma is_zero_Num n : is_zero (Num n) = (n =? 0)%N.
Proof. by destruct n. Qed.

(** The loop of [computeInactiveRanges] on whole tuples. *)
Lemma decode_loop inactive (ts : list token) :
  ∀ (pre : list N) k L C rs,
    length pre = 5 * k →
    ∃ L' C',
      foldl (decode_step inactive (pre ++ (ts ≫= untuple))) (Num L, Num C, rs)
        (seq k (length ts))
      = (Num L', Num C',
         rs ++ (filter (λ p, isInactive inactive p.1 = true) (zip ts (tokenRanges L C ts))).*2).
Proof.
  induction ts as [|t ts IH]; intros pre k L C rs Hpre.
  { exists L, C. simpl. by rewrite app_nil_r. }
  rewrite bind_cons. cbn [length seq foldl zip zip_with tokenRanges].
  destruct (IH (pre ++ untuple t) (S k) (L + deltaLine t)%N
              (if (deltaLine t =? 0)%N then (C + deltaStartChar t)%N else deltaStartChar t)
              (if isInactive inactive t
               then rs ++ [mkRange (Num (L + deltaLine t))
                 (Num (if (deltaLine t =? 0)%N then (C + deltaStartChar t)%N else deltaStartChar t))
                 (Num ((if (deltaLine t =? 0)%N then (C + deltaStartChar t)%N
                        else deltaStartChar t) + tokenLength t))]
               else rs))
    as (L' & C' & HIH).
  { rewrite length_app. simpl. lia. }
  exists L', C'. rewrite <- app_assoc in HIH.
  assert (∀ j, elem (pre ++ untuple t ++ ts ≫= untuple) (5 * k + j)
               = elem (untuple t ++ ts ≫= untuple) j) as Hrd
    by (intros j; by apply elem_app_r).
  pose proof (Hrd 0) as Hrd0. rewrite Nat.add_0_r in Hrd0.
  unfold decode_step at 2. rewrite !Hrd0, !Hrd.
  change (elem (untuple t ++ ts ≫= untuple) 0) with (Num (deltaLine t)).
  change (elem (untuple t ++ ts ≫= untuple) 1) with (Num (deltaStartChar t)).
  change (elem (untuple t ++ ts ≫= untuple) 2) with (Num (tokenLength t)).
  change (elem (untuple t ++ ts ≫= untuple) 3) with (Num (typeIndex t)).
  change (loose_eq (Num (typeIndex t)) inactive) with (isInactive inactive t).
  rewrite is_zero_Num, filter_cons. cbn [fst js_add].
  destruct (decide (isInactive inactive t = true)) as [Hty|Hty];
    [|apply not_true_is_false in Hty];
    rewrite Hty in HIH |- *;
    destruct (deltaLine t =? 0)%N; cbn [js_add]; rewrite HIH;
    by rewrite <- ?app_assoc.
Qed.

Lemma decode_tuples inactive B :
  length B mod 5 = 0 → decode inactive B = inactiveTokenRanges inactive (tuples B).
Proof.
  intros [n Hn]%length_mod5.
  destruct (tuples_untuple B n Hn) as [HB Hlen].
  unfold decode, inactiveTokenRanges.
  rewrite Hn, tokenIndices_whole, <- Hlen.
  destruct (decode_loop inactive (tuples B) [] 0 0%N 0%N [] eq_refl) as (L' & C' & Hloop).
  simpl in Hloop. rewrite <- HB in Hloop. by rewrite Hloop.
Qed.

(** *** The loop of [replaceInactiveRanges], integer by integer *)

Lemma elem_Num (l : list N) j x : l !! j = Some x → elem l j = Num x.
Proof. intros Hx. unfold elem. by rewrite Hx. Qed.

Lemma lookup_remap_steps inactive replacement (idxs : list nat) :
  ∀ (l : list N) j,
    foldl (remap_step inactive replacement) l idxs !! j
    = (λ x, if bool_decide (j ∈ (λ i, 5 * i + 3) <$> idxs) && loose_eq (Num x) inactive
            then to_uint32 replacement else x) <$> l !! j.
Proof.
  induction idxs as [|i idxs IH]; intros l j.
  { simpl. by destruct (l !! j). }
  cbn [foldl]. rewrite IH. unfold remap_step. rewrite fmap_cons.
  destruct (decide (j = 5 * i + 3)) as [->|Hne].
  - rewrite (bool_decide_eq_true_2 (_ ∈ _ :: _)) by apply list_elem_of_here.
    destruct (l !! (5 * i + 3)) as [x|] eqn:Hx.
    + rewrite (elem_Num _ _ _ Hx).
      destruct (loose_eq (Num x) inactive) eqn:Heq.
      * rewrite list_lookup_insert_eq by (by eapply lookup_lt_Some).
        cbn -[loose_eq to_uint32]. rewrite Heq. by destruct (_ && _).
      * rewrite Hx. cbn -[loose_eq to_uint32]. rewrite Heq. by rewrite andb_false_r.
    + assert (∀ l' : list N, length l' = length l → l' !! (5 * i + 3) = None) as Hnone.
      { intros l' Hl'. apply lookup_ge_None. rewrite Hl'. by apply lookup_ge_None. }
      destruct (loose_eq _ _); rewrite Hnone; try done. by rewrite length_insert.
  - assert (bool_decide (j ∈ (5 * i + 3) :: ((λ i, 5 * i + 3) <$> idxs))
            = bool_decide (j ∈ (λ i, 5 * i + 3) <$> idxs)) as ->.
    { apply bool_decide_ext. rewrite elem_of_cons. split; [by intros [?|?] | by right]. }
    destruct (loose_eq _ _); [|done]. by rewrite list_lookup_insert_ne.
Qed.

Lemma typeIndex_offsets len j :
  j < len → j ∈ (λ i, 5 * i + 3) <$> tokenIndices len ↔ j mod 5 = 3.
Proof.
  intros Hj. unfold tokenIndices. rewrite list_elem_of_fmap. split.
  - intros (i & -> & _). by rewrite Nat.add_comm, Nat.mul_comm, Nat.Div0.mod_add.
  - intros Hmod. exists (j / 5). split.
    + pose proof (Nat.div_mod_eq j 5). lia.
    + apply elem_of_seq. split; [lia|]. rewrite Nat.add_0_l.
      pose proof (Nat.div_mod_eq (len + 4) 5).
      pose proof (Nat.mod_upper_bound (len + 4) 5).
      pose proof (Nat.div_mod_eq j 5). lia.
Qed.

Lemma remap_loop_remap inactive replacement B :
  remap_loop inactive replacement B = remap inactive (to_uint32 replacement) B.
Proof.
  apply list_eq. intros j. unfold remap_loop, remap.
  rewrite lookup_remap_steps, list_lookup_imap.
  destruct (B !! j) as [x|] eqn:Hx; [|done].
  rewrite (bool_decide_ext _ _ (typeIndex_offsets (length B) j (lookup_lt_Some _ _ _ Hx))).
  done.
Qed.

Lemma to_uint32_Num s : (s < 2 ^ 32)%N → to_uint32 (Num s) = s.
Proof. intros Hs. simpl. by apply N.mod_small. Qed.

Lemma length_remap inactive s B : length (remap inactive s B) = length B.
Proof. apply length_imap. Qed.

(** *** Tuples and their integers *)

Lemma lookup_tuples (B : list N) i t :
  tuples B !! i = Some t →
  B !! (5 * i) = Some (deltaLine t) ∧ B !! (5 * i + 1) = Some (deltaStartChar t)
  ∧ B !! (5 * i + 2) = Some (tokenLength t) ∧ B !! (5 * i + 3) = Some (typeIndex t)
  ∧ B !! (5 * i + 4) = Some (modifierBitset t).
Proof.
  revert B. induction i as [|i IH]; intros B Ht;
    destruct B as [|a [|b [|c [|d [|e rest]]]]]; try done.
  - simpl in Ht. by injection Ht as <-.
  - replace (5 * S i) with (S (S (S (S (S (5 * i)))))) by lia.
    apply (IH rest Ht).
Qed.

Lemma lookup_typeIndex (B : list N) n j x :
  length B = 5 * n → j mod 5 = 3 → B !! j = Some x →
  ∃ t, tuples B !! (j / 5) = Some t ∧ typeIndex t = x.
Proof.
  intros Hn Hmod Hx.
  destruct (tuples_untuple B n Hn) as [_ Hlen].
  pose proof (lookup_lt_Some _ _ _ Hx) as Hj.
  pose proof (Nat.div_mod_eq j 5) as Hdiv.
  destruct (lookup_lt_is_Some_2 (tuples B) (j / 5)) as [t Ht]; [lia|].
  exists t. split; [done|].
  destruct (lookup_tuples B _ t Ht) as (_ & _ & _ & Hty & _).
  replace (5 * (j / 5) + 3) with j in Hty by lia.
  rewrite Hx in Hty. by injection Hty.
Qed.

(** A buffer without a tuple of the inactive category decodes to nothing
    and is remapped to itself. *)
Lemma inactiveTokenRanges_none inactive ts :
  Forall (λ t, isInactive inactive t = false) ts → inactiveTokenRanges inactive ts = [].
Proof.
  intros Hts. unfold inactiveTokenRanges.
  generalize (tokenRanges 0 0 ts) as rs. induction Hts as [|t ts Ht _ IH]; intros rs.
  { done. }
  destruct rs as [|r rs]; [done|]. cbn [zip zip_with].
  rewrite filter_cons_False; [apply IH|]. simpl. by rewrite Ht.
Qed.

Lemma remap_none inactive s B :
  length B mod 5 = 0 →
  Forall (λ t, isInactive inactive t = false) (tuples B) → remap inactive s B = B.
Proof.
  intros [n Hn]%length_mod5 Hts. apply list_eq. intros j.
  unfold remap. rewrite list_lookup_imap.
  destruct (B !! j) as [x|] eqn:Hx; [|done]. cbn [fmap option_fmap option_map]. f_equal.
  destruct (bool_decide_reflect (j mod 5 = 3)) as [Hmod|]; [|done].
  destruct (lookup_typeIndex B n j x Hn Hmod Hx) as (t & Ht & <-).
  rewrite Forall_lookup in Hts. specialize (Hts _ _ Ht).
  unfold isInactive in Hts. by rewrite Hts.
Qed.

(** *** Positions of the filtered tuples *)

Lemma filter_ext_elem {A} (P Q : A → Prop) `{!∀ x, Decision (P x), !∀ x, Decision (Q x)}
    (l : list A) :
  (∀ x, x ∈ l → P x ↔ Q x) → filter P l = filter Q l.
Proof.
  induction l as [|x l IH]; intros Hext; [done|].
  rewrite !filter_cons.
  rewrite IH by (intros y Hy; apply Hext; by right).
  destruct (decide (P x)) as [HP|HP], (decide (Q x)) as [HQ|HQ]; try done;
    exfalso; apply (Hext x) in HP || apply (Hext x) in HQ; try done; by left.
Qed.

Lemma omap_ext_elem {A B} (f g : A → option B) (l : list A) :
  (∀ x, x ∈ l → f x = g x) → omap f l = omap g l.
Proof.
  intros Hext. apply list_omap_ext, Forall_Forall2_diag, Forall_forall, Hext.
Qed.

Lemma filter_zip_seq {A B} (P : A → bool) (ts : list A) :
  ∀ (rs : list B) k, length rs = length ts →
    (filter (λ p, P p.1 = true) (zip ts rs)).*2
    = omap (λ i, rs !! (i - k))
        (filter (λ i, from_option P false (ts !! (i - k)) = true) (seq k (length ts))).
Proof.
  induction ts as [|t ts IH]; intros rs k Hlen; [done|].
  destruct rs as [|r rs]; [done|]. injection Hlen as Hlen.
  cbn [zip zip_with length seq]. rewrite !filter_cons, Nat.sub_diag. cbn [lookup list_lookup from_option fst].
  rewrite (filter_ext_elem _ (λ i, from_option P false (ts !! (i - S k)) = true) (seq (S k) _));
    last first.
  { intros i [Hi _]%elem_of_seq. by replace (i - k) with (S (i - S k)) by lia. }
  assert (omap (λ i, (r :: rs) !! (i - k))
            (filter (λ i, from_option P false (ts !! (i - S k)) = true) (seq (S k) (length ts)))
          = (filter (λ p, P p.1 = true) (zip ts rs)).*2) as Htail.
  { rewrite (IH rs (S k) Hlen). apply omap_ext_elem.
    intros i [_ [Hi _]%elem_of_seq]%list_elem_of_filter.
    by replace (i - k) with (S (i - S k)) by lia. }
  destruct (decide (P t = true)) as [Ht|Ht].
  - csimpl. rewrite Nat.sub_diag. csimpl. by rewrite Htail.
  - by rewrite Htail.
Qed.

Lemma length_tokenRanges L C ts : length (tokenRanges L C ts) = length ts.
Proof. revert L C. induction ts as [|t ts IH]; intros L C; simpl; [done|]. by rewrite IH. Qed.

Lemma inactiveTokenRanges_positions inactive ts :
  inactiveTokenRanges inactive ts
  = omap (tokenRanges 0 0 ts !!.) (inactivePositions inactive ts).
Proof.
  unfold inactiveTokenRanges, inactivePositions.
  rewrite (filter_zip_seq (isInactive inactive) ts (tokenRanges 0 0 ts) 0)
    by apply length_tokenRanges.
  rewrite (filter_ext_elem _ (λ i, from_option (isInactive inactive) false (ts !! i) = true)
             (seq 0 (length ts))) by (intros i _; by rewrite Nat.sub_0_r).
  apply omap_ext_elem. intros i _. by rewrite Nat.sub_0_r.
Qed.

(** *** Rendering requests *)

Lemma set_decorations_same st : set_decorations (decorations st) st = st.
Proof. by destruct st. Qed.

Lemma requests_app cache es1 es2 :
  requests cache (es1 ++ es2) = requests cache es1 ++ requests cache es2.
Proof. apply omap_app. Qed.

Lemma requests_cons cache editor editors :
  requests cache (editor :: editors) = requests cache [editor] ++ requests cache editors.
Proof. apply (requests_app cache [editor]). Qed.

Lemma applyInactiveRegions_run editor st :
  applyInactiveRegions editor st =
    (Ok tt, set_decorations (decorations st ++ requests (lastInactiveRanges st) [editor]) st).
Proof.
  unfold applyInactiveRegions, requests.
  rewrite (bind_run (gets _) _ _ _ _ eq_refl). csimpl.
  destruct (lastInactiveRanges st !! document editor) as [R|]; [done|].
  csimpl. by rewrite app_nil_r, set_decorations_same.
Qed.

Lemma onDidChangeVisibleTextEditors_run editors st :
  onDidChangeVisibleTextEditors editors st =
    (Ok tt, set_decorations (decorations st ++ requests (lastInactiveRanges st) editors) st).
Proof.
  unfold onDidChangeVisibleTextEditors. revert st.
  induction editors as [|editor editors IH]; intros st.
  { simpl. unfold requests. csimpl. by rewrite app_nil_r, set_decorations_same. }
  cbn [for_each]. rewrite (bind_run _ _ _ _ _ (applyInactiveRegions_run editor st)).
  rewrite IH, (requests_cons _ editor editors). simpl. by rewrite app_assoc.
Qed.

Lemma applyInactiveRegionsToDocument_run doc st :
  applyInactiveRegionsToDocument doc st =
    (Ok tt, set_decorations
       (decorations st ++ requests (lastInactiveRanges st)
          (filter (λ editor, document editor = doc) (visibleTextEditors st))) st).
Proof.
  unfold applyInactiveRegionsToDocument.
  rewrite (bind_run (gets _) _ _ _ _ eq_refl).
  generalize (visibleTextEditors st) as visible. intros visible. revert st.
  induction visible as [|editor visible IH]; intros st.
  { simpl. unfold requests. csimpl. by rewrite app_nil_r, set_decorations_same. }
  cbn [for_each]. rewrite filter_cons.
  destruct (decide (document editor = doc)) as [Hdoc|Hdoc].
  - rewrite bool_decide_eq_true_2 by done.
    rewrite (bind_run _ _ _ _ _ (applyInactiveRegions_run editor st)).
    rewrite IH, (requests_cons _ editor (filter _ visible)). simpl. by rewrite app_assoc.
  - rewrite bool_decide_eq_false_2 by done.
    rewrite (bind_run (mret _) _ _ _ _ eq_refl). apply IH.
Qed.

(** Every view of [filter ... visible] shows [doc], so each gets the ranges
    cached for [doc]. *)
Lemma requests_document cache doc R (visible : list TextEditor) :
  cache !! doc = Some R →
  requests cache (filter (λ editor, document editor = doc) visible)
  = (., R) <$> filter (λ editor, document editor = doc) visible.
Proof.
  intros HR. induction visible as [|editor visible IH]; [done|].
  rewrite filter_cons. destruct (decide (document editor = doc)) as [Hdoc|]; [|done].
  rewrite (requests_cons _ editor (filter _ visible)), IH.
  unfold requests. csimpl. by rewrite Hdoc, HR.
Qed.

Lemma provideDocumentSemanticTokens_run st doc tokens B :
  heap st !! data tokens = Some B →
  provideDocumentSemanticTokens doc tokens st =
    (Ok {| resultId := resultId tokens; data := dest st |},
     processed st doc tokens B).
Proof.
  intros HB. unfold provideDocumentSemanticTokens.
  rewrite (bind_run (modify _) _ _ _ _ eq_refl).
  erewrite bind_run; last first.
  { apply computeInactiveRanges_run. exact HB. }
  rewrite (bind_run (modify _) _ _ _ _ eq_refl).
  rewrite (bind_run _ _ _ _ _ (applyInactiveRegionsToDocument_run _ _)).
  erewrite replaceInactiveRanges_run; last first.
  { exact HB. }
  simpl.
  rewrite (requests_document _ doc _ _ (lookup_insert_eq _ _ _)).
  by rewrite remap_loop_remap.
Qed.

(** *** The loop of [initialize] *)

Lemma set_inactiveCodeTokenTypeIndex_same st :
  set_inactiveCodeTokenTypeIndex (inactiveCodeTokenTypeIndex st) st = st.
Proof. by destruct st. Qed.

Lemma initialize_run capabilities provider st :
  semanticTokensProvider capabilities = Some provider →
  let tokenTypes := tokenTypes (legend provider) in
  initialize capabilities st =
    (Ok tt,
     set_inactiveCodeTokenTypeReplaceIndex (Num (N.of_nat (length tokenTypes)))
       (set_inactiveCodeTokenTypeIndex
          (lastComment tokenTypes (inactiveCodeTokenTypeIndex st) (length tokenTypes)) st)).
Proof.
  intros Hprov tts. unfold initialize. rewrite Hprov. fold tts.
  pose proof (for_each_fold (seq 0 (length tts))
    (λ i (_ : unit),
       if bool_decide (tts !! i = Some "comment"%string)
       then modify (set_inactiveCodeTokenTypeIndex (Num (N.of_nat i)))
       else mret tt)
    (λ v i, if bool_decide (tts !! i = Some "comment"%string) then Num (N.of_nat i) else v)
    (λ _, tt) (λ v, set_inactiveCodeTokenTypeIndex v st)) as Hloop.
  simpl in Hloop.
  specialize (Hloop ltac:(by intros i v; destruct (bool_decide _)) (inactiveCodeTokenTypeIndex st)).
  rewrite set_inactiveCodeTokenTypeIndex_same in Hloop.
  by rewrite (bind_run _ _ _ _ _ Hloop).
Qed.

Lemma lastComment_S tokenTypes v n :
  lastComment tokenTypes v (S n) =
    if bool_decide (tokenTypes !! n = Some "comment"%string) then Num (N.of_nat n)
    else lastComment tokenTypes v n.
Proof. unfold lastComment. by rewrite seq_S, foldl_app. Qed.

Lemma lastComment_found tokenTypes v n i :
  i < n → tokenTypes !! i = Some "comment"%string →
  (∀ j, i < j → tokenTypes !! j ≠ Some "comment"%string) →
  lastComment tokenTypes v n = Num (N.of_nat i).
Proof.
  intros Hi Hc Hlast. induction n as [|n IH]; [lia|].
  rewrite lastComment_S.
  destruct (decide (i = n)) as [->|Hne].
  - by rewrite bool_decide_eq_true_2.
  - rewrite bool_decide_eq_false_2 by (apply Hlast; lia). apply IH. lia.
Qed.

Lemma lastComment_absent tokenTypes v n :
  (∀ j, tokenTypes !! j ≠ Some "comment"%string) → lastComment tokenTypes v n = v.
Proof.
  intros Habs. induction n as [|n IH]; [done|].
  by rewrite lastComment_S, bool_decide_eq_false_2.
Qed.

(** ** C1: what [applyDelta] reconstructs *)

(** C1, as stated, fails: with an insertion at 0 and a deletion of the
    second tuple, [applyDelta] keeps the first tuple of the buffer, while the
    splices performed in order delete it (the insertion has moved it to
    offset 5) and keep the second. *)
Lemma applyDelta_not_splice_in_order :
  length ten mod 5 = 0
  ∧ mapM (resolve (heap store_example)) (edits delta_example) = Some edits_example
  ∧ ascending 0 edits_example
  ∧ within (length ten) edits_example
  ∧ splice_in_order ten edits_example = (five ++ [6; 7; 8; 9; 10])%N
  ∧ ∃ out st',
      applyDelta tokens_example delta_example store_example = (Ok out, st')
      ∧ heap st' !! data out = Some (five ++ [1; 2; 3; 4; 5])%N
      ∧ heap st' !! data out ≠ Some (splice_in_order ten edits_example).
Proof.
  split; [done|]. split; [done|]. split; [simpl; lia|].
  split; [repeat constructor; simpl; lia|]. split; [done|].
  eexists _, _. split; [vm_compute; reflexivity|]. split; [done|]. done.
Qed.

(** C1, amended: for every buffer [B] and every delta whose edits are
    ascending by start, non-overlapping and inside [B], [applyDelta] returns
    a new array that holds [B] with the edits performed as splices from the
    last edit to the first (every offset meaning a place of [B]), under the
    delta's [resultId]; its length is the length of [B] plus the sum over the
    edits of the inserted length minus [deleteCount]. *)
Theorem applyDelta_splice_from_last st prev delta B es :
  heap st !! data prev = Some B →
  mapM (resolve (heap st)) (edits delta) = Some es →
  ascending 0 es →
  within (length B) es →
  ∃ out st',
    applyDelta prev delta st = (Ok out, st')
    ∧ resultId out = edits_resultId delta
    ∧ heap st !! data out = None
    ∧ heap st' !! data out = Some (splice_from_last B es)
    ∧ (Z.of_nat (length (splice_from_last B es))
       = Z.of_nat (length B) + deltaLength es)%Z.
Proof.
  intros HB Hres Hasc Hin. eexists _, _.
  split; [by apply (applyDelta_run st prev delta B es)|].
  rewrite <- (patched_splice_from_last B es Hasc Hin).
  split; [done|]. split; [apply dest_None|].
  split; [apply lookup_insert_eq | by apply length_patched].
Qed.

Lemma applyDelta_splice_from_last_witness :
  ∃ out st',
    applyDelta tokens_example delta_example store_example = (Ok out, st')
    ∧ resultId out = Some "2"%string
    ∧ heap store_example !! data out = None
    ∧ heap st' !! data out = Some (five ++ [1; 2; 3; 4; 5])%N
    ∧ (Z.of_nat (length (five ++ [1; 2; 3; 4; 5])%N) = 10 + 0)%Z.
Proof.
  apply (applyDelta_splice_from_last store_example tokens_example delta_example
           ten edits_example).
  - reflexivity.
  - reflexivity.
  - simpl; lia.
  - repeat constructor; simpl; lia.
Defined.

(** ** C2: decoding *)

(** C2: for every buffer whose length is a multiple of 5,
    [computeInactiveRanges] returns the absolute ranges of the tuples of the
    inactive category, the absolute positions being those of [tokenRanges]:
    running line and start character from 0, line = running line +
    deltaLine, start character = deltaStartChar when deltaLine is not 0 and
    running start character + deltaStartChar when it is, both moved on by
    every tuple whatever its category.  The state is left as it was.  For the
    buffer of the example and inactive index 7 the ranges are (0,5)-(0,8),
    (0,8)-(0,12) and (1,2)-(1,8). *)
Theorem computeInactiveRanges_decodes st tokens B :
  heap st !! data tokens = Some B →
  length B mod 5 = 0 →
  computeInactiveRanges tokens st
    = (Ok (inactiveTokenRanges (inactiveCodeTokenTypeIndex st) (tuples B)), st)
  ∧ (B = buffer_example → inactiveCodeTokenTypeIndex st = Num 7 →
     computeInactiveRanges tokens st = (Ok ranges_example, st)).
Proof.
  intros HB Hlen.
  assert (computeInactiveRanges tokens st
          = (Ok (inactiveTokenRanges (inactiveCodeTokenTypeIndex st) (tuples B)), st)) as Hrun.
  { rewrite (computeInactiveRanges_run st tokens B HB). by rewrite decode_tuples. }
  split; [done|]. intros -> H7. by rewrite Hrun, H7.
Qed.

Lemma computeInactiveRanges_decodes_witness :
  computeInactiveRanges tokens_example session_example
    = (Ok (inactiveTokenRanges (Num 7) (tuples buffer_example)), session_example)
  ∧ (buffer_example = buffer_example → Num 7 = Num 7 →
     computeInactiveRanges tokens_example session_example
       = (Ok ranges_example, session_example)).
Proof.
  apply (computeInactiveRanges_decodes session_example tokens_example buffer_example).
  - reflexivity.
  - reflexivity.
Defined.

(** ** C3: decoding and remapping agree *)

Lemma length_omap_lookup {A} (rs : list A) (ps : list nat) :
  Forall (λ i, i < length rs) ps → length (omap (rs !!.) ps) = length ps.
Proof.
  induction 1 as [|i ps Hi _ IH]; [done|]. csimpl.
  destruct (lookup_lt_is_Some_2 rs i Hi) as [r ->]. simpl. by rewrite IH.
Qed.

Lemma elem_of_inactivePositions inactive (B : list N) n i :
  length B = 5 * n →
  i ∈ inactivePositions inactive (tuples B)
  ↔ ∃ x, B !! (5 * i + 3) = Some x ∧ loose_eq (Num x) inactive = true.
Proof.
  intros Hn. destruct (tuples_untuple B n Hn) as [_ Hlen].
  unfold inactivePositions. rewrite list_elem_of_filter, elem_of_seq. split.
  - intros [Hi _]. destruct (tuples B !! i) as [t|] eqn:Ht; [|done].
    destruct (lookup_tuples B i t Ht) as (_ & _ & _ & Hty & _). eauto.
  - intros (x & Hx & Hin).
    assert ((5 * i + 3) mod 5 = 3) as Hmod
      by (by rewrite Nat.add_comm, Nat.mul_comm, Nat.Div0.mod_add).
    destruct (lookup_typeIndex B n _ x Hn Hmod Hx) as (t & Ht & <-).
    replace ((5 * i + 3) / 5) with i in Ht
      by (apply (Nat.div_unique _ 5 i 3); lia).
    rewrite Ht. split; [done|].
    apply lookup_lt_Some in Ht. lia.
Qed.

(** C3: for every buffer [B] whose length is a multiple of 5, with [ps] the
    tuple positions whose typeIndex in [B] equals the inactive index:
    [computeInactiveRanges] returns, in order, one range for each position
    of [ps], the absolute range of the tuple there, and nothing else;
    [replaceInactiveRanges] returns an array of the length of [B] that has
    the sentinel in the typeIndex field of every position of [ps] and the
    integer of [B] everywhere else; when the type indices of [B] are
    positions of the legend (below the sentinel), the sentinel is in the
    typeIndex field of no other position. *)
Theorem decode_remap_agree st tokens B sentinel :
  heap st !! data tokens = Some B →
  length B mod 5 = 0 →
  inactiveCodeTokenTypeReplaceIndex st = Num sentinel →
  (sentinel < 2 ^ 32)%N →
  let inactive := inactiveCodeTokenTypeIndex st in
  let ps := inactivePositions inactive (tuples B) in
  let emitted := omap (tokenRanges 0 0 (tuples B) !!.) ps in
  (∀ i, i ∈ ps ↔ ∃ x, B !! (5 * i + 3) = Some x ∧ loose_eq (Num x) inactive = true)
  ∧ computeInactiveRanges tokens st = (Ok emitted, st)
  ∧ length emitted = length ps
  ∧ ∃ out st' R,
      replaceInactiveRanges tokens st = (Ok out, st')
      ∧ heap st' !! data out = Some R
      ∧ length R = length B
      ∧ (∀ i, i ∈ ps → R !! (5 * i + 3) = Some sentinel)
      ∧ (∀ j, (∀ i, i ∈ ps → j ≠ 5 * i + 3) → R !! j = B !! j)
      ∧ (Forall (λ t, typeIndex t < sentinel)%N (tuples B) →
         ∀ i, R !! (5 * i + 3) = Some sentinel → i ∈ ps).
Proof.
  intros HB Hlen Hs Hlt inactive ps emitted.
  destruct (length_mod5 B Hlen) as [n Hn].
  assert (∀ i, i ∈ ps ↔ ∃ x, B !! (5 * i + 3) = Some x ∧ loose_eq (Num x) inactive = true)
    as Hps by (intros i; by apply (elem_of_inactivePositions inactive B n)).
  split; [done|]. split; [|split].
  - rewrite (computeInactiveRanges_run st tokens B HB), decode_tuples by done.
    by rewrite inactiveTokenRanges_positions.
  - apply length_omap_lookup, Forall_forall. intros i Hi.
    rewrite length_tokenRanges.
    apply list_elem_of_filter in Hi as [_ Hi]. apply elem_of_seq in Hi. lia.
  - eexists _, _, (remap inactive sentinel B).
    split; [by apply (replaceInactiveRanges_run st tokens B)|].
    split; [|split; [apply length_remap|split; [|split]]].
    + simpl. rewrite lookup_insert_eq, remap_loop_remap, Hs. by rewrite to_uint32_Num.
    + intros i (x & Hx & Hin)%Hps. unfold remap.
      rewrite list_lookup_imap, Hx. cbn [fmap option_fmap option_map].
      rewrite bool_decide_eq_true_2
        by (by rewrite Nat.add_comm, Nat.mul_comm, Nat.Div0.mod_add).
      fold inactive. by rewrite Hin.
    + intros j Hj. unfold remap. rewrite list_lookup_imap.
      destruct (B !! j) as [x|] eqn:Hx; [|done]. cbn [fmap option_fmap option_map].
      f_equal. destruct (bool_decide_reflect (j mod 5 = 3)) as [Hmod|]; [|done].
      fold inactive. destruct (loose_eq (Num x) inactive) eqn:Hin; [|done].
      exfalso. apply (Hj (j / 5)).
      * apply Hps. exists x. split; [|done].
        by replace (5 * (j / 5) + 3) with j by (pose proof (Nat.div_mod_eq j 5); lia).
      * pose proof (Nat.div_mod_eq j 5). lia.
    + intros Hlegend i HR.
      destruct (decide (i ∈ ps)) as [|Hnot]; [done|]. exfalso.
      unfold remap in HR. rewrite list_lookup_imap in HR.
      destruct (B !! (5 * i + 3)) as [x|] eqn:Hx; [|done].
      assert ((5 * i + 3) mod 5 = 3) as Hmod
        by (by rewrite Nat.add_comm, Nat.mul_comm, Nat.Div0.mod_add).
      destruct (lookup_typeIndex B n _ x Hn Hmod Hx) as (t & Ht & <-).
      rewrite Forall_lookup in Hlegend. specialize (Hlegend _ _ Ht).
      cbn [fmap option_fmap option_map] in HR.
      destruct (loose_eq (Num (typeIndex t)) inactive) eqn:Hin.
      * apply Hnot, Hps. eauto.
      * rewrite andb_false_r in HR. injection HR as HR. lia.
Qed.

Lemma decode_remap_agree_witness :
  let ps := [0; 1; 2] in
  let emitted := ranges_example in
  (∀ i, i ∈ ps ↔ ∃ x, buffer_example !! (5 * i + 3) = Some x
                       ∧ loose_eq (Num x) (Num 7) = true)
  ∧ computeInactiveRanges tokens_example session_example = (Ok emitted, session_example)
  ∧ length emitted = length ps
  ∧ ∃ out st' R,
      replaceInactiveRanges tokens_example session_example = (Ok out, st')
      ∧ heap st' !! data out = Some R
      ∧ length R = length buffer_example
      ∧ (∀ i, i ∈ ps → R !! (5 * i + 3) = Some 23%N)
      ∧ (∀ j, (∀ i, i ∈ ps → j ≠ 5 * i + 3) → R !! j = buffer_example !! j)
      ∧ (Forall (λ t, typeIndex t < 23)%N (tuples buffer_example) →
         ∀ i, R !! (5 * i + 3) = Some 23%N → i ∈ ps).
Proof.
  apply (decode_remap_agree session_example tokens_example buffer_example 23%N).
  - reflexivity.
  - reflexivity.
  - reflexivity.
  - reflexivity.
Defined.

(** ** C4: a delta that does not match the cache *)

(** C4: when no full buffer is cached for the document, or the cached
    buffer's [resultId] is not [previousResultId],
    [provideDocumentSemanticTokensEdits] returns the delta it was given and
    leaves the whole state, hence both caches of every document, as it
    was. *)
Theorem cache_miss_returns_delta st doc previousResultId delta :
  (∀ cached, lastTokens st !! doc = Some cached →
             resultId cached ≠ Some previousResultId) →
  provideDocumentSemanticTokensEdits doc previousResultId (Delta delta) st
    = (Ok (Delta delta), st).
Proof.
  intros Hmiss. unfold provideDocumentSemanticTokensEdits.
  rewrite (bind_run (gets _) _ _ _ _ eq_refl).
  destruct (lastTokens st !! doc) as [cached|]; [|done].
  by rewrite bool_decide_eq_true_2 by (by apply Hmiss).
Qed.

Lemma cache_miss_returns_delta_witness :
  provideDocumentSemanticTokensEdits 4 "0" (Delta delta_example) cached_example
    = (Ok (Delta delta_example), cached_example).
Proof.
  apply (cache_miss_returns_delta cached_example 4 "0"%string delta_example).
  intros cached Hc. vm_compute in Hc. injection Hc as <-. discriminate.
Defined.

(** ** C5: a full payload is cached as it came and remapped in a copy *)

(** C5: [provideDocumentSemanticTokens] stores the payload it was given (the
    same array, not a copy) as the document's cached buffer, and returns,
    under the payload's [resultId], an array that did not exist before and
    holds the payload's integers with every typeIndex equal to the inactive
    index replaced by the sentinel; the payload's array and every other
    array that existed hold what they held. *)
Theorem provideDocumentSemanticTokens_remaps_copy st doc tokens B sentinel :
  heap st !! data tokens = Some B →
  inactiveCodeTokenTypeReplaceIndex st = Num sentinel →
  (sentinel < 2 ^ 32)%N →
  ∃ out st',
    provideDocumentSemanticTokens doc tokens st = (Ok out, st')
    ∧ lastTokens st' !! doc = Some tokens
    ∧ heap st' !! data tokens = Some B
    ∧ resultId out = resultId tokens
    ∧ heap st !! data out = None
    ∧ heap st' !! data out = Some (remap (inactiveCodeTokenTypeIndex st) sentinel B)
    ∧ (∀ a l, heap st !! a = Some l → heap st' !! a = Some l).
Proof.
  intros HB Hs Hlt. eexists _, _.
  split; [by apply (provideDocumentSemanticTokens_run st doc tokens B)|].
  assert (∀ a l, heap st !! a = Some l →
            heap (processed st doc tokens B) !! a = Some l) as Hkept.
  { intros a l Ha. simpl. rewrite lookup_insert_ne; [done|].
    symmetry. by eapply dest_ne. }
  split; [apply lookup_insert_eq|]. split; [by apply Hkept|]. split; [done|].
  split; [apply dest_None|]. split; [|done].
  simpl. by rewrite lookup_insert_eq, Hs, to_uint32_Num.
Qed.

Lemma provideDocumentSemanticTokens_remaps_copy_witness :
  ∃ out st',
    provideDocumentSemanticTokens 4 tokens_example session_example = (Ok out, st')
    ∧ lastTokens st' !! 4 = Some tokens_example
    ∧ heap st' !! data tokens_example = Some buffer_example
    ∧ resultId out = Some "1"%string
    ∧ heap session_example !! data out = None
    ∧ heap st' !! data out
      = Some [0; 5; 3; 23; 0;  0; 3; 4; 23; 0;  1; 2; 6; 23; 0]%N
    ∧ (∀ a l, heap session_example !! a = Some l → heap st' !! a = Some l).
Proof.
  apply (provideDocumentSemanticTokens_remaps_copy session_example 4 tokens_example
           buffer_example 23%N).
  - reflexivity.
  - reflexivity.
  - reflexivity.
Defined.

(** ** C7: payloads whose length is not a multiple of 5 *)

(** C7, as stated, fails: a payload of 4 integers is processed without an
    exception and replaces both cached entries of its document. *)
Lemma malformed_payload_is_cached :
  length malformed_example mod 5 ≠ 0
  ∧ lastTokens before_malformed !! 4 = Some tokens_example
  ∧ lastInactiveRanges before_malformed !! 4 = Some ranges_example
  ∧ ∃ out st',
      provideDocumentSemanticTokens 4 malformed_tokens before_malformed = (Ok out, st')
      ∧ lastTokens st' !! 4 = Some malformed_tokens
      ∧ lastInactiveRanges st' !! 4 = Some [mkRange (Num 0) (Num 5) (Num 8)].
Proof.
  split; [done|]. split; [done|]. split; [done|].
  eexists _, _. split; [vm_compute; reflexivity|]. done.
Qed.

(** C7, amended: [provideDocumentSemanticTokens] checks no length.  For
    every payload, whatever the length of its buffer, it returns without an
    exception; the payload becomes the cached buffer of its document and the
    ranges decoded from it, round by round for every [tokenIndex] below a
    fifth of the length, become the document's cached ranges; the cached
    entries of every other document stay. *)
Theorem provideDocumentSemanticTokens_checks_no_length st doc tokens B :
  heap st !! data tokens = Some B →
  ∃ out st',
    provideDocumentSemanticTokens doc tokens st = (Ok out, st')
    ∧ lastTokens st' !! doc = Some tokens
    ∧ lastInactiveRanges st' !! doc = Some (decode (inactiveCodeTokenTypeIndex st) B)
    ∧ (∀ doc', doc' ≠ doc →
         lastTokens st' !! doc' = lastTokens st !! doc'
         ∧ lastInactiveRanges st' !! doc' = lastInactiveRanges st !! doc').
Proof.
  intros HB. eexists _, _.
  split; [by apply (provideDocumentSemanticTokens_run st doc tokens B)|].
  split; [apply lookup_insert_eq|]. split; [apply lookup_insert_eq|].
  intros doc' Hne. simpl. by rewrite !lookup_insert_ne.
Qed.

Lemma provideDocumentSemanticTokens_checks_no_length_witness :
  ∃ out st',
    provideDocumentSemanticTokens 4 malformed_tokens before_malformed = (Ok out, st')
    ∧ lastTokens st' !! 4 = Some malformed_tokens
    ∧ lastInactiveRanges st' !! 4 = Some [mkRange (Num 0) (Num 5) (Num 8)]
    ∧ (∀ doc', doc' ≠ 4 →
         lastTokens st' !! doc' = lastTokens before_malformed !! doc'
         ∧ lastInactiveRanges st' !! doc' = lastInactiveRanges before_malformed !! doc').
Proof.
  apply (provideDocumentSemanticTokens_checks_no_length before_malformed 4
           malformed_tokens malformed_example).
  reflexivity.
Defined.

(** ** C8: buffers without a tuple of the inactive category *)

(** C8: for every buffer [B] whose length is a multiple of 5 and none of
    whose tuples has a typeIndex equal to the inactive index,
    [replaceInactiveRanges] returns an array holding exactly [B], under the
    same [resultId], and [computeInactiveRanges] returns no range. *)
Theorem no_inactive_tuple st tokens B :
  heap st !! data tokens = Some B →
  length B mod 5 = 0 →
  Forall (λ t, isInactive (inactiveCodeTokenTypeIndex st) t = false) (tuples B) →
  computeInactiveRanges tokens st = (Ok [], st)
  ∧ ∃ out st',
      replaceInactiveRanges tokens st = (Ok out, st')
      ∧ resultId out = resultId tokens
      ∧ heap st' !! data out = Some B.
Proof.
  intros HB Hlen Hnone. split.
  - rewrite (computeInactiveRanges_run st tokens B HB), decode_tuples by done.
    by rewrite inactiveTokenRanges_none.
  - eexists _, _. split; [by apply (replaceInactiveRanges_run st tokens B)|].
    split; [done|]. simpl.
    by rewrite lookup_insert_eq, remap_loop_remap, remap_none.
Qed.

Lemma no_inactive_tuple_witness :
  computeInactiveRanges tokens_example other_session = (Ok [], other_session)
  ∧ ∃ out st',
      replaceInactiveRanges tokens_example other_session = (Ok out, st')
      ∧ resultId out = Some "1"%string
      ∧ heap st' !! data out = Some buffer_example.
Proof.
  apply (no_inactive_tuple other_session tokens_example buffer_example).
  - reflexivity.
  - reflexivity.
  - repeat constructor.
Defined.

(** ** C6: resolving the indices *)

Lemma remap_Undefined s B : remap Undefined s B = B.
Proof.
  apply list_eq. intros j. unfold remap. rewrite list_lookup_imap.
  destruct (B !! j) as [x|]; [|done]. simpl. by rewrite andb_false_r.
Qed.

Lemma isInactive_Undefined ts : Forall (λ t, isInactive Undefined t = false) ts.
Proof. by apply Forall_forall. Qed.

(** C6: when the server's capabilities carry a legend, [initialize] records
    the length of the legend as the replacement index and, the legend naming
    ['comment'], the (last) index at which it does as the inactive index,
    and touches nothing else; when they carry none, [initialize] changes
    nothing, and as long as the inactive index is unassigned remapping
    returns a copy equal to its input and decoding a buffer of whole tuples
    returns no range. *)
Theorem initialize_resolves capabilities st :
  match semanticTokensProvider capabilities with
  | Some provider =>
      let tokenTypes := tokenTypes (legend provider) in
      ∃ st',
        initialize capabilities st = (Ok tt, st')
        ∧ inactiveCodeTokenTypeReplaceIndex st' = Num (N.of_nat (length tokenTypes))
        ∧ (∀ i, tokenTypes !! i = Some "comment"%string →
                (∀ j, i < j → tokenTypes !! j ≠ Some "comment"%string) →
                inactiveCodeTokenTypeIndex st' = Num (N.of_nat i))
        ∧ ((∀ j, tokenTypes !! j ≠ Some "comment"%string) →
           inactiveCodeTokenTypeIndex st' = inactiveCodeTokenTypeIndex st)
        ∧ lastTokens st' = lastTokens st
        ∧ lastInactiveRanges st' = lastInactiveRanges st
        ∧ heap st' = heap st
        ∧ decorations st' = decorations st
  | None =>
      initialize capabilities st = (Ok tt, st)
      ∧ (inactiveCodeTokenTypeIndex st = Undefined →
         ∀ tokens B, heap st !! data tokens = Some B →
           (∃ out st',
              replaceInactiveRanges tokens st = (Ok out, st')
              ∧ resultId out = resultId tokens
              ∧ heap st' !! data out = Some B)
           ∧ (length B mod 5 = 0 → computeInactiveRanges tokens st = (Ok [], st)))
  end.
Proof.
  destruct (semanticTokensProvider capabilities) as [provider|] eqn:Hprov.
  - intros tts. eexists. split; [by apply initialize_run|].
    split; [done|]. split; [|split; [|done]].
    + intros i Hi Hlast. simpl.
      apply lastComment_found; [by eapply lookup_lt_Some|done|done].
    + intros Habs. simpl. by apply lastComment_absent.
  - split; [unfold initialize; by rewrite Hprov|].
    intros Hun tokens B HB. split.
    + eexists _, _. split; [by apply (replaceInactiveRanges_run st tokens B)|].
      split; [done|]. simpl.
      by rewrite lookup_insert_eq, remap_loop_remap, Hun, remap_Undefined.
    + intros Hlen.
      rewrite (computeInactiveRanges_run st tokens B HB), decode_tuples, Hun by done.
      apply f_equal2; [|done]. f_equal.
      apply inactiveTokenRanges_none, isInactive_Undefined.
Qed.

Lemma initialize_resolves_witness :
  (∃ st',
     initialize with_legend (loaded ∅ []) = (Ok tt, st')
     ∧ inactiveCodeTokenTypeReplaceIndex st' = Num 23
     ∧ (∀ i, tokenTypes legend_example !! i = Some "comment"%string →
             (∀ j, i < j → tokenTypes legend_example !! j ≠ Some "comment"%string) →
             inactiveCodeTokenTypeIndex st' = Num (N.of_nat i))
     ∧ ((∀ j, tokenTypes legend_example !! j ≠ Some "comment"%string) →
        inactiveCodeTokenTypeIndex st' = Undefined)
     ∧ lastTokens st' = ∅
     ∧ lastInactiveRanges st' = ∅
     ∧ heap st' = ∅
     ∧ decorations st' = [])
  ∧ (let st := loaded {[ 1%positive := buffer_example ]} [] in
     initialize without_legend st = (Ok tt, st)
     ∧ (Undefined = Undefined →
        ∀ tokens B, heap st !! data tokens = Some B →
          (∃ out st',
             replaceInactiveRanges tokens st = (Ok out, st')
             ∧ resultId out = resultId tokens
             ∧ heap st' !! data out = Some B)
          ∧ (length B mod 5 = 0 → computeInactiveRanges tokens st = (Ok [], st)))).
Proof.
  split.
  - apply (initialize_resolves with_legend (loaded ∅ [])).
  - apply (initialize_resolves without_legend (loaded {[ 1%positive := buffer_example ]} [])).
Defined.

(** With the legend of the example, ['comment'] is found at 7. *)
Example initialize_example :
  ∃ st',
    initialize with_legend (loaded ∅ []) = (Ok tt, st')
    ∧ inactiveCodeTokenTypeIndex st' = Num 7
    ∧ inactiveCodeTokenTypeReplaceIndex st' = Num 23.
Proof. eexists. split; [vm_compute; reflexivity|]. done. Qed.

(** ** C9: views that become visible *)

Lemma requests_of_absent_view cache (editors : list TextEditor) editor :
  editor ∉ editors → filter (λ p, p.1 = editor) (requests cache editors) = [].
Proof.
  induction editors as [|e editors IH]; intros Hnot; [done|].
  apply not_elem_of_cons in Hnot as [Hne Hnot].
  rewrite (requests_cons _ e editors), filter_app, IH, app_nil_r by done.
  unfold requests. csimpl. destruct (cache !! document e); [|done].
  csimpl. by rewrite filter_cons_False by (simpl; congruence).
Qed.

Lemma requests_of_view cache (editors : list TextEditor) editor :
  NoDup editors → editor ∈ editors →
  filter (λ p, p.1 = editor) (requests cache editors)
  = match cache !! document editor with
    | Some R => [(editor, R)]
    | None => []
    end.
Proof.
  induction 1 as [|e editors Hnot _ IH]; intros Hin; [by apply elem_of_nil in Hin|].
  rewrite (requests_cons _ e editors), filter_app.
  destruct (decide (editor = e)) as [->|Hne].
  - rewrite (requests_of_absent_view _ _ _ Hnot), app_nil_r.
    unfold requests. csimpl. destruct (cache !! document e); [|done].
    csimpl. by rewrite filter_cons_True.
  - apply elem_of_cons in Hin as [?|Hin]; [done|]. rewrite (IH Hin).
    unfold requests at 1. csimpl. destruct (cache !! document e) as [R'|]; [|done].
    csimpl. by rewrite filter_cons_False by (simpl; congruence).
Qed.

(** C9: an event with the views [editors] (each once) leaves the state as
    it was but for the rendering requests [new] it adds: for a view of the
    event whose document has cached ranges [R], exactly one request, with
    [R]; for a view whose document has none, no request, and no exception.
    The requests are the same whatever the arrays and the cached token
    buffers hold: nothing is decoded. *)
Theorem visible_views_changed st editors :
  NoDup editors →
  ∃ new,
    onDidChangeVisibleTextEditors editors st
      = (Ok tt, set_decorations (decorations st ++ new) st)
    ∧ (∀ editor, editor ∈ editors →
         filter (λ p, p.1 = editor) new
         = match lastInactiveRanges st !! document editor with
           | Some R => [(editor, R)]
           | None => []
           end)
    ∧ (∀ h m,
         let st0 := set_heap h (set_lastTokens m st) in
         onDidChangeVisibleTextEditors editors st0
           = (Ok tt, set_decorations (decorations st0 ++ new) st0)).
Proof.
  intros Hnodup. exists (requests (lastInactiveRanges st) editors).
  split; [apply onDidChangeVisibleTextEditors_run|].
  split; [intros editor Hin; by apply requests_of_view|].
  intros h m st0. apply (onDidChangeVisibleTextEditors_run editors st0).
Qed.

Lemma visible_views_changed_witness :
  ∃ new,
    onDidChangeVisibleTextEditors [view_example; other_view] cached_example
      = (Ok tt, set_decorations (decorations cached_example ++ new) cached_example)
    ∧ (∀ editor, editor ∈ [view_example; other_view] →
         filter (λ p, p.1 = editor) new
         = match lastInactiveRanges cached_example !! document editor with
           | Some R => [(editor, R)]
           | None => []
           end)
    ∧ (∀ h m,
         let st0 := set_heap h (set_lastTokens m cached_example) in
         onDidChangeVisibleTextEditors [view_example; other_view] st0
           = (Ok tt, set_decorations (decorations st0 ++ new) st0)).
Proof.
  apply (visible_views_changed cached_example [view_example; other_view]).
  apply (bool_decide_unpack (NoDup [view_example; other_view])).
  vm_compute. exact I.
Defined.

(** ** C10: the [resultId] of the cache follows the payloads *)

Lemma provideDocumentSemanticTokens_inv doc tokens st out st' :
  provideDocumentSemanticTokens doc tokens st = (Ok out, st') →
  ∃ B, heap st !! data tokens = Some B
       ∧ out = {| resultId := resultId tokens; data := dest st |}
       ∧ st' = processed st doc tokens B.
Proof.
  destruct (heap st !! data tokens) as [B|] eqn:HB.
  - rewrite (provideDocumentSemanticTokens_run st doc tokens B HB).
    intros [= <- <-]. eauto.
  - unfold provideDocumentSemanticTokens.
    rewrite (bind_run (modify _) _ _ _ _ eq_refl).
    erewrite bind_throw; [done|].
    unfold computeInactiveRanges. erewrite bind_throw; [done|].
    unfold array_length. erewrite bind_throw; [done|].
    unfold contents. simpl. by rewrite HB.
Qed.

Lemma applyDelta_resultId prev delta st out st' :
  applyDelta prev delta st = (Ok out, st') → resultId out = edits_resultId delta.
Proof.
  unfold applyDelta.
  intros (deltaLength & s1 & _ & H)%bind_inv.
  apply bind_inv in H as (srcLength & s2 & _ & H).
  apply bind_inv in H as (destData & s3 & _ & H).
  apply bind_inv in H as ([readIndex insertIndex] & s4 & _ & H).
  apply bind_inv in H as ([] & s5 & _ & H).
  by injection H as <- _.
Qed.

Lemma replaceInactiveRanges_resultId tokens st out st' :
  replaceInactiveRanges tokens st = (Ok out, st') → resultId out = resultId tokens.
Proof.
  unfold replaceInactiveRanges.
  intros (n & s1 & _ & H)%bind_inv.
  apply bind_inv in H as (new & s2 & _ & H).
  apply bind_inv in H as (elements & s3 & _ & H).
  apply bind_inv in H as ([] & s4 & _ & H).
  apply bind_inv in H as (len & s5 & _ & H).
  apply bind_inv in H as ([] & s6 & _ & H).
  by injection H as <- _.
Qed.

(** C10: [applyDelta] gives its result the delta's [resultId];
    [replaceInactiveRanges] gives its result its input's; so does
    [provideDocumentSemanticTokens], which caches its input.  Hence, when
    [provideDocumentSemanticTokensEdits] has processed a payload (a full one,
    or a delta it reconstructed) and returned the buffer [out], the buffer
    cached for the document and [out] both carry the payload's [resultId],
    and a next delta whose [previousResultId] is that id is not turned away:
    it is applied to the cached buffer and the result processed. *)
Theorem resultId_follows_payload st doc previousResultId payload out st' :
  provideDocumentSemanticTokensEdits doc previousResultId payload st = (Ok (Full out), st') →
  resultId out = payload_resultId payload
  ∧ (∃ cached,
       lastTokens st' !! doc = Some cached
       ∧ resultId cached = payload_resultId payload
       ∧ ∀ id next, payload_resultId payload = Some id →
           provideDocumentSemanticTokensEdits doc id (Delta next) st'
           = (tokens ← applyDelta cached next;
              Full <$> provideDocumentSemanticTokens doc tokens) st')
  ∧ (∀ prev delta s t s',
       applyDelta prev delta s = (Ok t, s') → resultId t = edits_resultId delta)
  ∧ (∀ tokens s t s',
       replaceInactiveRanges tokens s = (Ok t, s') → resultId t = resultId tokens)
  ∧ (∀ d tokens s t s',
       provideDocumentSemanticTokens d tokens s = (Ok t, s') →
       resultId t = resultId tokens ∧ lastTokens s' !! d = Some tokens).
Proof.
  intros Hrun.
  assert (∀ d tokens s t s',
            provideDocumentSemanticTokens d tokens s = (Ok t, s') →
            resultId t = resultId tokens ∧ lastTokens s' !! d = Some tokens) as Hfull.
  { intros d tokens s t s' (B & _ & -> & ->)%provideDocumentSemanticTokens_inv.
    split; [done|]. apply lookup_insert_eq. }
  assert (∃ tokens, resultId tokens = payload_resultId payload
                    ∧ resultId out = resultId tokens
                    ∧ lastTokens st' !! doc = Some tokens) as (cached & Hid & Hout & Hc).
  { unfold provideDocumentSemanticTokensEdits in Hrun.
    destruct payload as [tokens|delta].
    - apply fmap_inv in Hrun as (t & Hrun & [= <-]).
      exists tokens. destruct (Hfull _ _ _ _ _ Hrun). done.
    - rewrite (bind_run (gets _) _ _ _ _ eq_refl) in Hrun.
      destruct (lastTokens st !! doc) as [previousTokens|]; [|done].
      destruct (bool_decide _); [done|].
      apply bind_inv in Hrun as (tokens & s1 & Hdelta & Hrun).
      apply fmap_inv in Hrun as (t & Hrun & [= <-]).
      exists tokens. destruct (Hfull _ _ _ _ _ Hrun).
      split; [by eapply applyDelta_resultId|done]. }
  split; [congruence|]. split.
  - exists cached. split; [done|]. split; [done|].
    intros id next Hpid. unfold provideDocumentSemanticTokensEdits.
    rewrite (bind_run (gets _) _ _ _ _ eq_refl), Hc.
    by rewrite bool_decide_eq_false_2 by (intros Hne; apply Hne; congruence).
  - split; [apply applyDelta_resultId|].
    split; [apply replaceInactiveRanges_resultId | apply Hfull].
Qed.

Lemma resultId_follows_payload_witness :
  let out := {| resultId := Some "2"%string; data := 4%positive |} in
  let st' := after_delta.2 in
  resultId out = Some "2"%string
  ∧ (∃ cached,
       lastTokens st' !! 4 = Some cached
       ∧ resultId cached = Some "2"%string
       ∧ ∀ id next, Some "2"%string = Some id →
           provideDocumentSemanticTokensEdits 4 id (Delta next) st'
           = (tokens ← applyDelta cached next;
              Full <$> provideDocumentSemanticTokens 4 tokens) st')
  ∧ (∀ prev delta s t s',
       applyDelta prev delta s = (Ok t, s') → resultId t = edits_resultId delta)
  ∧ (∀ tokens s t s',
       replaceInactiveRanges tokens s = (Ok t, s') → resultId t = resultId tokens)
  ∧ (∀ d tokens s t s',
       provideDocumentSemanticTokens d tokens s = (Ok t, s') →
       resultId t = resultId tokens ∧ lastTokens s' !! d = Some tokens).
Proof.
  apply (resultId_follows_payload cached_example 4 "1"%string (Delta next_delta)).
  vm_compute. reflexivity.
Defined.

(** * Further properties of the module *)

(** ** Outcomes of a sequence, and what a computation leaves alone *)

Lemma bind_cases {A B} (m : M A) (f : A → M B) st o st' :
  (m ≫= f) st = (o, st') →
  (∃ a s1, m st = (Ok a, s1) ∧ f a s1 = (o, st'))
  ∨ (∃ e, m st = (Throw e, st') ∧ o = Throw e).
Proof.
  unfold mbind, M_bind. destruct (m st) as [[a|e] s1]; intros H.
  - left. eauto.
  - right. injection H as <- <-. eauto.
Qed.

Lemma preserves_bind {A B} I (m : M A) (f : A → M B) :
  preserves I m → (∀ a, preserves I (f a)) → preserves I (m ≫= f).
Proof.
  intros Hm Hf st o st' HI [(a & s1 & H1 & H2)|(e & H1 & _)]%bind_cases.
  - eapply Hf; [|done]. by eapply Hm.
  - by eapply Hm.
Qed.

Lemma preserves_mret {A} I (a : A) : preserves I (mret a).
Proof. by intros st o st' HI [= _ <-]. Qed.

Lemma preserves_for_each {A S} I (xs : list A) (body : A → S → M S) :
  (∀ x s, preserves I (body x s)) → ∀ s, preserves I (for_each xs body s).
Proof.
  intros Hbody. induction xs as [|x xs IH]; intros s; simpl.
  - apply preserves_mret.
  - apply preserves_bind; [apply Hbody | intros s'; apply IH].
Qed.

Lemma readonly_preserves {A} I (m : M A) : readonly m → preserves I m.
Proof. intros Hm st o st' HI Hrun. by rewrite (Hm _ _ _ Hrun). Qed.

Lemma readonly_bind {A B} (m : M A) (f : A → M B) :
  readonly m → (∀ a, readonly (f a)) → readonly (m ≫= f).
Proof.
  intros Hm Hf st o st' [(a & s1 & H1 & H2)|(e & H1 & _)]%bind_cases.
  - rewrite (Hf _ _ _ _ H2). by eapply Hm.
  - by eapply Hm.
Qed.

Lemma readonly_mret {A} (a : A) : readonly (mret a).
Proof. by intros st o st' [= _ <-]. Qed.

Lemma readonly_for_each {A S} (xs : list A) (body : A → S → M S) :
  (∀ x s, readonly (body x s)) → ∀ s, readonly (for_each xs body s).
Proof.
  intros Hbody. induction xs as [|x xs IH]; intros s; simpl.
  - apply readonly_mret.
  - apply readonly_bind; [apply Hbody | intros s'; apply IH].
Qed.

Lemma readonly_contents a : readonly (contents a).
Proof.
  intros st o st'. unfold contents.
  destruct (heap st !! a); by intros [= _ <-].
Qed.

Lemma readonly_array_length a : readonly (array_length a).
Proof.
  apply readonly_bind; [apply readonly_contents | intros l; apply readonly_mret].
Qed.

Lemma readonly_subarray a b e : readonly (subarray a b e).
Proof.
  apply readonly_bind; [apply readonly_contents | intros l; apply readonly_mret].
Qed.

(** Writing to the new array of [st0] leaves a state that is [st0] with
    that one array more. *)
Lemma preserves_array_set st0 xs w :
  preserves (λ s, ∃ cur, s = allocated st0 cur) (array_set (dest st0) xs w).
Proof.
  intros st o st' [cur ->]. unfold array_set.
  rewrite (bind_run _ _ _ _ _ (contents_run _ _ _ (lookup_allocated_dest st0 cur))).
  destruct (bool_decide _).
  - intros [= _ <-]. eauto.
  - unfold modify. intros [= _ <-]. exists (overwrite cur w xs).
    apply allocated_again.
Qed.

Lemma preserves_copy st0 w d r n :
  preserves (λ s, ∃ cur, s = allocated st0 cur) (copy (dest st0) w d r n).
Proof.
  apply preserves_bind.
  - apply readonly_preserves, readonly_subarray.
  - intros window. apply preserves_array_set.
Qed.

Lemma at_most_allocated_frame st st' :
  at_most_allocated st st' →
  inactiveCodeTokenTypeIndex st' = inactiveCodeTokenTypeIndex st
  ∧ inactiveCodeTokenTypeReplaceIndex st' = inactiveCodeTokenTypeReplaceIndex st
  ∧ lastTokens st' = lastTokens st
  ∧ lastInactiveRanges st' = lastInactiveRanges st
  ∧ visibleTextEditors st' = visibleTextEditors st
  ∧ decorations st' = decorations st
  ∧ (∀ a l, heap st !! a = Some l → heap st' !! a = Some l).
Proof.
  intros [->|[cur ->]]; [done|].
  repeat (split; [done|]). intros a l. apply lookup_allocated.
Qed.

(** ** [applyDelta], whether it returns or throws *)

Lemma applyDelta_outcome prev delta st o st' :
  applyDelta prev delta st = (o, st') →
  at_most_allocated st st'
  ∧ (∀ out, o = Ok out →
       out = {| resultId := edits_resultId delta; data := dest st |}
       ∧ ∃ cur, st' = allocated st cur).
Proof.
  unfold applyDelta. intros H.
  apply bind_cases in H as [(deltaLength & s1 & H1 & H)|(e & H1 & ->)]; last first.
  { split; [left|done]. revert H1. apply readonly_for_each.
    intros edit z. apply readonly_bind; [|intros n; apply readonly_mret].
    destruct (edit_data edit); [apply readonly_array_length | apply readonly_mret]. }
  assert (s1 = st) as ->.
  { revert H1. apply readonly_for_each.
    intros edit z. apply readonly_bind; [|intros n; apply readonly_mret].
    destruct (edit_data edit); [apply readonly_array_length | apply readonly_mret]. }
  apply bind_cases in H as [(srcLength & s2 & H2 & H)|(e & H2 & ->)]; last first.
  { split; [left|done]. by apply readonly_array_length in H2. }
  apply readonly_array_length in H2 as ->.
  apply bind_cases in H as [(destData & s3 & H3 & H)|(e & H3 & ->)]; last first.
  { split; [left|done]. unfold new_Uint32Array in H3.
    destruct (_ <? _)%Z; [|done]. by injection H3. }
  unfold new_Uint32Array in H3. destruct (_ <? _)%Z; [done|].
  injection H3 as <- <-.
  change (fresh (dom (heap st))) with (dest st) in H.
  change (set_heap _ st) with (allocated st (replicate (Z.to_nat (Z.of_nat srcLength + deltaLength)) 0%N)) in H.
  assert (∃ cur, st' = allocated st cur) as Hst'.
  { revert H. apply (preserves_bind (λ s, ∃ cur, s = allocated st cur)); [| |by eauto].
    - apply preserves_for_each. intros edit [readIndex insertIndex].
      apply preserves_bind.
      + destruct (_ <? _)%Z; [|apply preserves_mret].
        apply preserves_bind; [apply preserves_copy|intros _; apply preserves_mret].
      + intros w. apply preserves_bind; [|intros w'; apply preserves_mret].
        destruct (edit_data edit); [|apply preserves_mret].
        apply preserves_bind; [apply readonly_preserves, readonly_array_length|].
        intros n. apply preserves_bind; [apply preserves_copy|intros _; apply preserves_mret].
    - intros [readIndex insertIndex].
      apply preserves_bind; [|intros _; apply preserves_mret].
      destruct (bool_decide _); [apply preserves_copy | apply preserves_mret]. }
  split; [by right|]. intros out ->. split; [|done].
  apply bind_inv in H as ([readIndex insertIndex] & s4 & _ & H).
  apply bind_inv in H as ([] & s5 & _ & H).
  by injection H as <- _.
Qed.

(** X2: whatever [applyDelta] is given and whether it returns or throws, it
    leaves the two indices, both caches, the visible views and the request
    log as they were, and every array that existed holds what it held: all
    it may change is the array it allocates. *)
Theorem applyDelta_changes_only_its_array prev delta st o st' :
  applyDelta prev delta st = (o, st') →
  inactiveCodeTokenTypeIndex st' = inactiveCodeTokenTypeIndex st
  ∧ inactiveCodeTokenTypeReplaceIndex st' = inactiveCodeTokenTypeReplaceIndex st
  ∧ lastTokens st' = lastTokens st
  ∧ lastInactiveRanges st' = lastInactiveRanges st
  ∧ visibleTextEditors st' = visibleTextEditors st
  ∧ decorations st' = decorations st
  ∧ (∀ a l, heap st !! a = Some l → heap st' !! a = Some l).
Proof.
  intros [Hst' _]%applyDelta_outcome. by apply at_most_allocated_frame.
Qed.

Lemma applyDelta_changes_only_its_array_witness :
  let st' := (applyDelta tokens_example delta_example store_example).2 in
  inactiveCodeTokenTypeIndex st' = Undefined
  ∧ inactiveCodeTokenTypeReplaceIndex st' = Undefined
  ∧ lastTokens st' = ∅
  ∧ lastInactiveRanges st' = ∅
  ∧ visibleTextEditors st' = []
  ∧ decorations st' = []
  ∧ (∀ a l, heap store_example !! a = Some l → heap st' !! a = Some l).
Proof.
  apply (applyDelta_changes_only_its_array tokens_example delta_example store_example
           (applyDelta tokens_example delta_example store_example).1).
  vm_compute. reflexivity.
Defined.

(** X3: when the edits delete more than the buffer and the insertions
    together hold, so that the length [applyDelta] computes for its result
    is negative, [applyDelta] throws a [RangeError] and leaves the state
    exactly as it was. *)
Theorem applyDelta_negative_length st prev delta B es :
  heap st !! data prev = Some B →
  mapM (resolve (heap st)) (edits delta) = Some es →
  (Z.of_nat (length B) + deltaLength es < 0)%Z →
  applyDelta prev delta st = (Throw RangeError, st).
Proof.
  intros HB Hres%mapM_Some Hneg. unfold applyDelta.
  rewrite (bind_run _ _ _ _ _ (deltaLength_loop st _ _ 0%Z Hres)).
  rewrite (bind_run _ _ _ _ _ (array_length_run _ _ _ HB)).
  erewrite bind_throw; [done|].
  unfold new_Uint32Array. rewrite Z.add_0_l.
  by destruct (Z.ltb_spec (Z.of_nat (length B) + deltaLength es) 0); [|lia].
Qed.

Lemma applyDelta_negative_length_witness :
  applyDelta tokens_example overlong_delta cached_example
    = (Throw RangeError, cached_example).
Proof.
  apply (applyDelta_negative_length cached_example tokens_example overlong_delta
           buffer_example
           [ {| e_start := 0; e_deleteCount := 20; e_insert := [] |} ]).
  - reflexivity.
  - reflexivity.
  - reflexivity.
Defined.

(** X4: a delta without edits: [applyDelta] returns, under the delta's
    [resultId], a new array that holds what the previous buffer holds; the
    previous array is another one and keeps its contents. *)
Theorem applyDelta_no_edits st prev delta B :
  heap st !! data prev = Some B →
  edits delta = [] →
  ∃ out st',
    applyDelta prev delta st = (Ok out, st')
    ∧ resultId out = edits_resultId delta
    ∧ data out ≠ data prev
    ∧ heap st' !! data out = Some B
    ∧ heap st' !! data prev = Some B.
Proof.
  intros HB Hnone. eexists _, _.
  split.
  { apply (applyDelta_run st prev delta B []);
      [done | by rewrite Hnone | exact I | constructor]. }
  split; [done|]. split; [simpl; symmetry; by eapply dest_ne|].
  split; [|by apply lookup_allocated].
  simpl. rewrite lookup_insert_eq. unfold patched. simpl. by rewrite drop_0.
Qed.

Lemma applyDelta_no_edits_witness :
  ∃ out st',
    applyDelta tokens_example empty_delta session_example = (Ok out, st')
    ∧ resultId out = Some "2"%string
    ∧ data out ≠ 1%positive
    ∧ heap st' !! data out = Some buffer_example
    ∧ heap st' !! 1%positive = Some buffer_example.
Proof.
  apply (applyDelta_no_edits session_example tokens_example empty_delta buffer_example).
  - reflexivity.
  - reflexivity.
Defined.

(** ** [copy] *)

(** X1: [copy(dest, destOffset, src, srcOffset, length)] takes the window of
    [src] from [srcOffset], at most [length] long and cut at the end of
    [src].  When the window fits into [dest] at [destOffset] it is written
    there, [dest] keeping its length and every other array its contents;
    when it does not fit, be it empty, [copy] throws a [RangeError] and
    writes nothing. *)
Theorem copy_fits_or_throws st dest src destOffset srcOffset length cur l :
  heap st !! dest = Some cur →
  heap st !! src = Some l →
  let window := take length (drop srcOffset l) in
  List.length window = length `min` (List.length l - srcOffset)
  ∧ (destOffset + List.length window ≤ List.length cur →
     ∃ st', copy dest destOffset src srcOffset length st = (Ok tt, st')
            ∧ heap st' !! dest = Some (overwrite cur destOffset window)
            ∧ List.length (overwrite cur destOffset window) = List.length cur
            ∧ (∀ a, a ≠ dest → heap st' !! a = heap st !! a))
  ∧ (List.length cur < destOffset + List.length window →
     copy dest destOffset src srcOffset length st = (Throw RangeError, st)).
Proof.
  intros Hdest Hsrc window.
  split; [unfold window; by rewrite length_take, length_drop|].
  assert (subarray src srcOffset (srcOffset + length) st = (Ok window, st)) as Hwin.
  { rewrite (subarray_run st src l _ _ Hsrc).
    by replace (srcOffset + length - srcOffset) with length by lia. }
  split.
  - intros Hfit. eexists. unfold copy. rewrite (bind_run _ _ _ _ _ Hwin).
    split; [apply (array_set_run st dest cur); [done|lia]|].
    split; [apply lookup_insert_eq|]. split; [by apply length_overwrite|].
    intros a Ha. simpl. by rewrite lookup_insert_ne.
  - intros Hover. unfold copy. rewrite (bind_run _ _ _ _ _ Hwin).
    unfold array_set. rewrite (bind_run _ _ _ _ _ (contents_run _ _ _ Hdest)).
    by rewrite bool_decide_eq_true_2 by lia.
Qed.

Lemma copy_fits_or_throws_witness :
  let window := [1; 2; 3; 4; 5]%N in
  List.length window = 5 `min` (10 - 0)
  ∧ (0 + List.length window ≤ List.length five →
     ∃ st', copy 2%positive 0 1%positive 0 5 store_example = (Ok tt, st')
            ∧ heap st' !! 2%positive = Some window
            ∧ List.length window = List.length five
            ∧ (∀ a, a ≠ 2%positive → heap st' !! a = heap store_example !! a))
  ∧ (List.length five < 0 + List.length window →
     copy 2%positive 0 1%positive 0 5 store_example = (Throw RangeError, store_example)).
Proof.
  apply (copy_fits_or_throws store_example 2%positive 1%positive 0 0 5 five ten).
  - reflexivity.
  - reflexivity.
Defined.

(** ** Deltas that hit the cache *)

(** X5: a delta whose [previousResultId] is the id of the cached buffer [B]
    and whose edits are ascending, non-overlapping and inside [B] is
    processed like a full payload holding [B] with the edits applied: the
    reconstructed array is cached under the delta's [resultId], the ranges
    decoded from it are cached, a remapped copy in yet another array is
    returned, the array cached before keeps its contents, and the entries of
    other documents stay. *)
Theorem delta_hit_processes_reconstruction st doc previousResultId delta prev B es :
  lastTokens st !! doc = Some prev →
  resultId prev = Some previousResultId →
  heap st !! data prev = Some B →
  mapM (resolve (heap st)) (edits delta) = Some es →
  ascending 0 es →
  within (length B) es →
  let B' := splice_from_last B es in
  ∃ out cached st',
    provideDocumentSemanticTokensEdits doc previousResultId (Delta delta) st
      = (Ok (Full out), st')
    ∧ resultId out = edits_resultId delta
    ∧ lastTokens st' !! doc = Some cached
    ∧ resultId cached = edits_resultId delta
    ∧ heap st' !! data cached = Some B'
    ∧ data cached ≠ data out
    ∧ lastInactiveRanges st' !! doc = Some (decode (inactiveCodeTokenTypeIndex st) B')
    ∧ heap st' !! data out
      = Some (remap (inactiveCodeTokenTypeIndex st)
                (to_uint32 (inactiveCodeTokenTypeReplaceIndex st)) B')
    ∧ heap st' !! data prev = Some B
    ∧ (∀ doc', doc' ≠ doc →
         lastTokens st' !! doc' = lastTokens st !! doc'
         ∧ lastInactiveRanges st' !! doc' = lastInactiveRanges st !! doc').
Proof.
  intros Hc Hid HB Hres Hasc Hin B'.
  unfold B'. rewrite <- (patched_splice_from_last B es Hasc Hin).
  set (P := patched B es).
  set (t := {| resultId := edits_resultId delta; data := dest st |}).
  assert (heap (allocated st P) !! data t = Some P) as Ht
    by apply lookup_allocated_dest.
  exists {| resultId := edits_resultId delta; data := dest (allocated st P) |}, t,
    (processed (allocated st P) doc t P).
  split.
  { unfold provideDocumentSemanticTokensEdits.
    rewrite (bind_run (gets _) _ _ _ _ eq_refl), Hc.
    rewrite bool_decide_eq_false_2 by (intros Hne; by apply Hne).
    rewrite (bind_run _ _ _ _ _ (applyDelta_run st prev delta B es HB Hres Hasc Hin)).
    apply fmap_run. apply (provideDocumentSemanticTokens_run _ doc t P Ht). }
  assert (dest st ≠ dest (allocated st P)) as Hne by (by eapply dest_ne).
  split; [done|]. split; [apply lookup_insert_eq|]. split; [done|].
  split; [simpl; by rewrite lookup_insert_ne, lookup_insert_eq|].
  split; [done|]. split; [apply lookup_insert_eq|].
  split; [apply lookup_insert_eq|].
  split.
  - simpl. rewrite lookup_insert_ne.
    + by apply (lookup_allocated st P).
    + symmetry. eapply dest_ne. by apply (lookup_allocated st P).
  - intros doc' Hdoc. simpl. by rewrite !lookup_insert_ne.
Qed.

Lemma delta_hit_processes_reconstruction_witness :
  let B' := [0; 5; 3; 7; 0;  1; 2; 6; 7; 0]%N in
  ∃ out cached st',
    provideDocumentSemanticTokensEdits 4 "1" (Delta next_delta) cached_example
      = (Ok (Full out), st')
    ∧ resultId out = Some "2"%string
    ∧ lastTokens st' !! 4 = Some cached
    ∧ resultId cached = Some "2"%string
    ∧ heap st' !! data cached = Some B'
    ∧ data cached ≠ data out
    ∧ lastInactiveRanges st' !! 4
      = Some [mkRange (Num 0) (Num 5) (Num 8); mkRange (Num 1) (Num 2) (Num 8)]
    ∧ heap st' !! data out = Some [0; 5; 3; 23; 0;  1; 2; 6; 23; 0]%N
    ∧ heap st' !! 1%positive = Some buffer_example
    ∧ (∀ doc', doc' ≠ 4 →
         lastTokens st' !! doc' = lastTokens cached_example !! doc'
         ∧ lastInactiveRanges st' !! doc' = lastInactiveRanges cached_example !! doc').
Proof.
  apply (delta_hit_processes_reconstruction cached_example 4 "1"%string next_delta
           tokens_example buffer_example
           [ {| e_start := 5; e_deleteCount := 5; e_insert := [] |} ]).
  - reflexivity.
  - reflexivity.
  - reflexivity.
  - reflexivity.
  - simpl; lia.
  - repeat constructor; simpl; lia.
Defined.

(** X6: when processing a delta throws, the exception comes from the
    reconstruction, before anything is cached: both caches, the indices and
    the request log are as before the call, and every array that existed
    holds what it held. *)
Theorem delta_failure_keeps_caches st doc previousResultId delta e st' :
  provideDocumentSemanticTokensEdits doc previousResultId (Delta delta) st
    = (Throw e, st') →
  (∃ prev, lastTokens st !! doc = Some prev
           ∧ resultId prev = Some previousResultId
           ∧ applyDelta prev delta st = (Throw e, st'))
  ∧ inactiveCodeTokenTypeIndex st' = inactiveCodeTokenTypeIndex st
  ∧ inactiveCodeTokenTypeReplaceIndex st' = inactiveCodeTokenTypeReplaceIndex st
  ∧ lastTokens st' = lastTokens st
  ∧ lastInactiveRanges st' = lastInactiveRanges st
  ∧ visibleTextEditors st' = visibleTextEditors st
  ∧ decorations st' = decorations st
  ∧ (∀ a l, heap st !! a = Some l → heap st' !! a = Some l).
Proof.
  unfold provideDocumentSemanticTokensEdits.
  rewrite (bind_run (gets _) _ _ _ _ eq_refl).
  destruct (lastTokens st !! doc) as [prev|]; [|done].
  destruct (bool_decide_reflect (resultId prev ≠ Some previousResultId)) as [|Hid];
    [done|].
  apply dec_stable in Hid.
  intros [(t & s1 & Hdelta & Hrun)|(e' & Hdelta & [= <-])]%bind_cases.
  - exfalso.
    destruct (applyDelta_outcome _ _ _ _ _ Hdelta) as [_ Hout].
    destruct (Hout t eq_refl) as (-> & cur & ->).
    erewrite fmap_run in Hrun; [done|].
    apply (provideDocumentSemanticTokens_run _ doc _ cur), lookup_allocated_dest.
  - split; [by eauto|].
    apply at_most_allocated_frame. by eapply applyDelta_outcome.
Qed.

Lemma delta_failure_keeps_caches_witness :
  let st := cached_example in
  let st' := (provideDocumentSemanticTokensEdits 4 "1" (Delta beyond_delta) st).2 in
  (∃ prev, lastTokens st !! 4 = Some prev
           ∧ resultId prev = Some "1"%string
           ∧ applyDelta prev beyond_delta st = (Throw RangeError, st'))
  ∧ inactiveCodeTokenTypeIndex st' = inactiveCodeTokenTypeIndex st
  ∧ inactiveCodeTokenTypeReplaceIndex st' = inactiveCodeTokenTypeReplaceIndex st
  ∧ lastTokens st' = lastTokens st
  ∧ lastInactiveRanges st' = lastInactiveRanges st
  ∧ visibleTextEditors st' = visibleTextEditors st
  ∧ decorations st' = decorations st
  ∧ (∀ a l, heap st !! a = Some l → heap st' !! a = Some l).
Proof.
  apply (delta_failure_keeps_caches cached_example 4 "1"%string beyond_delta RangeError).
  vm_compute. reflexivity.
Defined.

(** ** Rendering requests when a payload is processed *)

Lemma requests_document_None cache doc (visible : list TextEditor) :
  cache !! doc = None →
  requests cache (filter (λ editor, document editor = doc) visible) = [].
Proof.
  intros Hnone. induction visible as [|editor visible IH]; [done|].
  rewrite filter_cons. destruct (decide (document editor = doc)) as [Hdoc|]; [|done].
  rewrite (requests_cons _ editor (filter _ visible)), IH.
  unfold requests. csimpl. by rewrite Hdoc, Hnone.
Qed.

(** X8: [applyInactiveRegionsToDocument] never throws and changes nothing
    but the request log.  When ranges [R] are cached for the document it
    asks, in the order of [visibleTextEditors], each visible view of that
    document to render [R], and no other view; when none are cached it asks
    nothing. *)
Theorem applyInactiveRegionsToDocument_requests doc st :
  ∃ st',
    applyInactiveRegionsToDocument doc st = (Ok tt, st')
    ∧ (∀ R, lastInactiveRanges st !! doc = Some R →
         st' = set_decorations
                 (decorations st
                  ++ ((., R) <$> filter (λ editor, document editor = doc)
                                   (visibleTextEditors st))) st)
    ∧ (lastInactiveRanges st !! doc = None → st' = st).
Proof.
  eexists. split; [apply applyInactiveRegionsToDocument_run|]. split.
  - intros R HR. by rewrite (requests_document _ _ R _ HR).
  - intros Hnone.
    by rewrite (requests_document_None _ _ _ Hnone), app_nil_r, set_decorations_same.
Qed.

Lemma requests_to_view doc (R : list Range) (visible : list TextEditor) editor :
  NoDup visible → editor ∈ visible →
  filter (λ p, p.1 = editor) ((., R) <$> filter (λ e, document e = doc) visible)
  = if decide (document editor = doc) then [(editor, R)] else [].
Proof.
  intros Hnodup Hin.
  rewrite <- (requests_document {[ doc := R ]} doc R visible (lookup_singleton_eq _ _)).
  destruct (decide (document editor = doc)) as [Hdoc|Hdoc].
  - rewrite requests_of_view.
    + by rewrite Hdoc, lookup_singleton_eq.
    + by apply NoDup_filter.
    + by apply list_elem_of_filter.
  - apply requests_of_absent_view. by intros [? _]%list_elem_of_filter.
Qed.

(** X7: while it processes a payload, [provideDocumentSemanticTokens] asks
    every visible view of the payload's document, once, to render the ranges
    decoded from this payload (not ranges cached earlier), and asks nothing
    of the views of other documents. *)
Theorem processing_decorates_views st doc tokens B :
  heap st !! data tokens = Some B →
  NoDup (visibleTextEditors st) →
  let ranges := decode (inactiveCodeTokenTypeIndex st) B in
  ∃ out st' new,
    provideDocumentSemanticTokens doc tokens st = (Ok out, st')
    ∧ decorations st' = decorations st ++ new
    ∧ (∀ editor, editor ∈ visibleTextEditors st →
         filter (λ p, p.1 = editor) new
         = if decide (document editor = doc) then [(editor, ranges)] else [])
    ∧ (∀ p, p ∈ new → p.1 ∈ visibleTextEditors st).
Proof.
  intros HB Hnodup ranges. eexists _, _, _.
  split; [by apply (provideDocumentSemanticTokens_run st doc tokens B)|].
  split; [done|]. split.
  - intros editor Hin. by apply requests_to_view.
  - intros p (editor & -> & [_ Hin]%list_elem_of_filter)%list_elem_of_fmap. done.
Qed.

Lemma processing_decorates_views_witness :
  let ranges := [mkRange (Num 0) (Num 5) (Num 8)] in
  ∃ out st' new,
    provideDocumentSemanticTokens 4 malformed_tokens two_views = (Ok out, st')
    ∧ decorations st' = [] ++ new
    ∧ (∀ editor, editor ∈ [view_example; other_view] →
         filter (λ p, p.1 = editor) new
         = if decide (document editor = 4) then [(editor, ranges)] else [])
    ∧ (∀ p, p ∈ new → p.1 ∈ [view_example; other_view]).
Proof.
  apply (processing_decorates_views two_views 4 malformed_tokens malformed_example).
  - reflexivity.
  - apply (bool_decide_unpack (NoDup [view_example; other_view])).
    vm_compute. exact I.
Defined.

(** X16: once a payload has been processed for a document, an event that
    makes a view of that document visible asks that view, once, for the
    ranges decoded from that payload, and changes nothing else. *)
Theorem processed_then_visible st doc tokens B editor :
  heap st !! data tokens = Some B →
  document editor = doc →
  ∃ out st1,
    provideDocumentSemanticTokens doc tokens st = (Ok out, st1)
    ∧ onDidChangeVisibleTextEditors [editor] st1
      = (Ok tt, set_decorations
                  (decorations st1 ++ [(editor, decode (inactiveCodeTokenTypeIndex st) B)])
                  st1).
Proof.
  intros HB Hdoc. eexists _, _.
  split; [by apply (provideDocumentSemanticTokens_run st doc tokens B)|].
  rewrite onDidChangeVisibleTextEditors_run. unfold requests. csimpl.
  by rewrite Hdoc, lookup_insert_eq.
Qed.

Lemma processed_then_visible_witness :
  ∃ out st1,
    provideDocumentSemanticTokens 4 tokens_example session_example = (Ok out, st1)
    ∧ onDidChangeVisibleTextEditors [view_example] st1
      = (Ok tt, set_decorations (decorations st1 ++ [(view_example, ranges_example)]) st1).
Proof.
  apply (processed_then_visible session_example 4 tokens_example buffer_example
           view_example).
  - reflexivity.
  - reflexivity.
Defined.

(** ** The remapped copy, tuple by tuple *)

Lemma remap_tuple inactive s a b c d e rest :
  remap inactive s (a :: b :: c :: d :: e :: rest)
  = a :: b :: c :: (if loose_eq (Num d) inactive then s else d) :: e
      :: remap inactive s rest.
Proof.
  unfold remap.
  set (f := λ (j : nat) (x : N),
              if bool_decide (j mod 5 = 3) && loose_eq (Num x) inactive then s else x).
  rewrite !imap_cons.
  rewrite (imap_ext (f ∘ S ∘ S ∘ S ∘ S ∘ S) f rest); [done|].
  intros j x _. unfold f, compose.
  replace (S (S (S (S (S j))))) with (j + 1 * 5) by lia.
  by rewrite Nat.Div0.mod_add.
Qed.

Lemma tuples_remap inactive s B :
  tuples (remap inactive s B) = retype inactive s <$> tuples B.
Proof.
  assert (∀ n (B : list N), length B ≤ n →
            tuples (remap inactive s B) = retype inactive s <$> tuples B) as Hind.
  { clear B. induction n as [|n IH]; intros B Hn.
    { by destruct B; [|simpl in Hn; lia]. }
    destruct B as [|a [|b [|c [|d [|e rest]]]]]; try done.
    rewrite remap_tuple. cbn [tuples fmap list_fmap].
    rewrite IH by (simpl in Hn; lia). f_equal.
    unfold retype, isInactive.
    cbn [typeIndex deltaLine deltaStartChar tokenLength modifierBitset].
    by destruct (loose_eq (Num d) inactive). }
  by apply (Hind (length B)).
Qed.

Lemma tokenRanges_retype inactive s ts L C :
  tokenRanges L C (retype inactive s <$> ts) = tokenRanges L C ts.
Proof.
  revert L C. induction ts as [|t ts IH]; intros L C; [done|].
  cbn [fmap list_fmap tokenRanges].
  assert (deltaLine (retype inactive s t) = deltaLine t
          ∧ deltaStartChar (retype inactive s t) = deltaStartChar t
          ∧ tokenLength (retype inactive s t) = tokenLength t) as (-> & -> & ->)
    by (unfold retype; by destruct (isInactive inactive t)).
  f_equal. apply IH.
Qed.

(** X12: remapping moves no token.  The copy [replaceInactiveRanges]
    returns has, tuple for tuple, the deltaLine, deltaStartChar, length and
    modifier bits of its input; only the typeIndex of the tuples of the
    inactive category differs (it is the sentinel); so every token has the
    absolute range it had. *)
Theorem remap_moves_no_token st tokens B sentinel :
  heap st !! data tokens = Some B →
  inactiveCodeTokenTypeReplaceIndex st = Num sentinel →
  (sentinel < 2 ^ 32)%N →
  ∃ out st' R,
    replaceInactiveRanges tokens st = (Ok out, st')
    ∧ heap st' !! data out = Some R
    ∧ tuples R = retype (inactiveCodeTokenTypeIndex st) sentinel <$> tuples B
    ∧ tokenRanges 0 0 (tuples R) = tokenRanges 0 0 (tuples B).
Proof.
  intros HB Hs Hlt.
  exists {| resultId := resultId tokens; data := dest st |},
    (allocated st (remap_loop (inactiveCodeTokenTypeIndex st)
                     (inactiveCodeTokenTypeReplaceIndex st) B)),
    (remap (inactiveCodeTokenTypeIndex st) sentinel B).
  split; [by apply replaceInactiveRanges_run|].
  split.
  { cbn [data]. rewrite lookup_allocated_dest, remap_loop_remap, Hs.
    by rewrite to_uint32_Num. }
  rewrite tuples_remap. split; [done|]. apply tokenRanges_retype.
Qed.

Lemma remap_moves_no_token_witness :
  ∃ out st' R,
    replaceInactiveRanges tokens_example session_example = (Ok out, st')
    ∧ heap st' !! data out = Some R
    ∧ tuples R = retype (Num 7) 23 <$> tuples buffer_example
    ∧ tokenRanges 0 0 (tuples R) = tokenRanges 0 0 (tuples buffer_example).
Proof.
  apply (remap_moves_no_token session_example tokens_example buffer_example 23%N).
  - reflexivity.
  - reflexivity.
  - reflexivity.
Defined.

Lemma retype_not_inactive inactive s ts :
  loose_eq (Num s) inactive = false →
  Forall (λ t, isInactive inactive t = false) (retype inactive s <$> ts).
Proof.
  intros Hs. apply Forall_fmap, Forall_forall. intros t _. simpl.
  unfold retype. destruct (isInactive inactive t) eqn:Ht; [|done].
  by unfold isInactive.
Qed.

(** X10: when the sentinel is not the inactive index, the copy that
    [replaceInactiveRanges] returns for a buffer of whole tuples has no token
    of the inactive category left: [computeInactiveRanges] on the copy
    returns no range. *)
Theorem remapped_copy_decodes_to_nothing st tokens B sentinel :
  heap st !! data tokens = Some B →
  length B mod 5 = 0 →
  inactiveCodeTokenTypeReplaceIndex st = Num sentinel →
  (sentinel < 2 ^ 32)%N →
  loose_eq (Num sentinel) (inactiveCodeTokenTypeIndex st) = false →
  ∃ out st',
    replaceInactiveRanges tokens st = (Ok out, st')
    ∧ computeInactiveRanges out st' = (Ok [], st').
Proof.
  intros HB Hlen Hs Hlt Hne. eexists _, _.
  split; [by apply (replaceInactiveRanges_run st tokens B)|].
  erewrite computeInactiveRanges_run; last first.
  { apply lookup_allocated_dest. }
  simpl. rewrite remap_loop_remap, Hs, to_uint32_Num by done.
  rewrite decode_tuples by (by rewrite length_remap).
  rewrite tuples_remap. by rewrite inactiveTokenRanges_none by (by apply retype_not_inactive).
Qed.

Lemma remapped_copy_decodes_to_nothing_witness :
  ∃ out st',
    replaceInactiveRanges tokens_example session_example = (Ok out, st')
    ∧ computeInactiveRanges out st' = (Ok [], st').
Proof.
  apply (remapped_copy_decodes_to_nothing session_example tokens_example
           buffer_example 23%N).
  - reflexivity.
  - reflexivity.
  - reflexivity.
  - reflexivity.
  - reflexivity.
Defined.

Lemma remap_remap inactive s B :
  loose_eq (Num s) inactive = false →
  remap inactive s (remap inactive s B) = remap inactive s B.
Proof.
  intros Hs. apply list_eq. intros j. unfold remap.
  rewrite !list_lookup_imap. destruct (B !! j) as [x|]; [|done].
  cbn [fmap option_fmap option_map]. f_equal.
  destruct (bool_decide (j mod 5 = 3)); [|done]. cbn [andb].
  destruct (loose_eq (Num x) inactive) eqn:Hx; [by rewrite Hs | by rewrite Hx].
Qed.

(** X11: remapping is idempotent when the sentinel is not the inactive
    index: [replaceInactiveRanges] applied to the copy it returned returns a
    further copy with the same integers, for a buffer of any length. *)
Theorem replaceInactiveRanges_idempotent st tokens B sentinel :
  heap st !! data tokens = Some B →
  inactiveCodeTokenTypeReplaceIndex st = Num sentinel →
  (sentinel < 2 ^ 32)%N →
  loose_eq (Num sentinel) (inactiveCodeTokenTypeIndex st) = false →
  ∃ out st' again st'' R,
    replaceInactiveRanges tokens st = (Ok out, st')
    ∧ replaceInactiveRanges out st' = (Ok again, st'')
    ∧ data again ≠ data out
    ∧ heap st'' !! data out = Some R
    ∧ heap st'' !! data again = Some R.
Proof.
  intros HB Hs Hlt Hne.
  set (R := remap (inactiveCodeTokenTypeIndex st) sentinel B).
  assert (replaceInactiveRanges tokens st
          = (Ok {| resultId := resultId tokens; data := dest st |}, allocated st R)) as Hrun.
  { rewrite (replaceInactiveRanges_run st tokens B HB).
    by rewrite remap_loop_remap, Hs, to_uint32_Num. }
  assert (heap (allocated st R) !! dest st = Some R) as HR by apply lookup_allocated_dest.
  eexists _, _, _, _, R. split; [exact Hrun|].
  split; [by apply (replaceInactiveRanges_run _ _ R)|].
  split; [simpl; symmetry; by eapply dest_ne|].
  split; [by apply lookup_allocated|].
  cbn [data]. rewrite lookup_allocated_dest.
  change (inactiveCodeTokenTypeIndex (allocated st R))
    with (inactiveCodeTokenTypeIndex st).
  change (inactiveCodeTokenTypeReplaceIndex (allocated st R))
    with (inactiveCodeTokenTypeReplaceIndex st).
  rewrite remap_loop_remap, Hs, to_uint32_Num by done.
  unfold R. by rewrite remap_remap.
Qed.

Lemma replaceInactiveRanges_idempotent_witness :
  ∃ out st' again st'' R,
    replaceInactiveRanges tokens_example session_example = (Ok out, st')
    ∧ replaceInactiveRanges out st' = (Ok again, st'')
    ∧ data again ≠ data out
    ∧ heap st'' !! data out = Some R
    ∧ heap st'' !! data again = Some R.
Proof.
  apply (replaceInactiveRanges_idempotent session_example tokens_example
           buffer_example 23%N).
  - reflexivity.
  - reflexivity.
  - reflexivity.
  - reflexivity.
Defined.

(** ** The order of the decoded ranges *)

Lemma position_le_trans p q r : position_le p q → position_le q r → position_le p r.
Proof.
  unfold position_le.
  destruct (line p), (character p), (line q), (character q), (line r), (character r);
    try done; lia.
Qed.

Lemma ascending_starts_cons r rs :
  starts_le r r → Forall (starts_le r) rs → ascending_starts rs →
  ascending_starts (r :: rs).
Proof.
  intros Hrefl Hall Hrs i j r1 r2 Hij H1 H2.
  destruct i as [|i], j as [|j]; simpl in H1, H2; [| |lia|].
  - by injection H1 as <-; injection H2 as <-.
  - injection H1 as <-. rewrite Forall_lookup in Hall. by eapply Hall.
  - eapply (Hrs i j); [lia|done|done].
Qed.

Lemma filtered_tokenRanges_ascending inactive (ts : list token) :
  ∀ L C,
    let rs := (filter (λ p, isInactive inactive p.1 = true)
                 (zip ts (tokenRanges L C ts))).*2 in
    Forall one_line rs
    ∧ Forall (λ r, position_le {| line := Num L; character := Num C |} (range_start r)) rs
    ∧ ascending_starts rs.
Proof.
  induction ts as [|t ts IH]; intros L C.
  { split; [constructor|]. split; [constructor|]. by intros i j r1 r2 _ ?. }
  cbn [tokenRanges zip zip_with].
  set (L' := (L + deltaLine t)%N).
  set (C' := if (deltaLine t =? 0)%N then (C + deltaStartChar t)%N else deltaStartChar t).
  destruct (IH L' C') as (Hone & Hfrom & Hasc).
  assert (position_le {| line := Num L; character := Num C |}
            {| line := Num L'; character := Num C' |}) as Hstep.
  { unfold position_le, L', C'. simpl.
    destruct (N.eqb_spec (deltaLine t) 0); lia. }
  assert (Forall (λ r, position_le {| line := Num L; character := Num C |} (range_start r))
            (filter (λ p, isInactive inactive p.1 = true)
               (zip ts (tokenRanges L' C' ts))).*2) as Hfrom'.
  { eapply Forall_impl; [exact Hfrom|]. intros r Hr. by eapply position_le_trans. }
  rewrite filter_cons. destruct (decide _); [|done].
  cbn [fmap list_fmap snd]. split; [|split].
  - constructor; [|done]. exists L', C', (C' + tokenLength t)%N. split; [done|lia].
  - by constructor.
  - apply ascending_starts_cons; [|exact Hfrom|done].
    unfold starts_le, position_le. simpl. lia.
Qed.

(** X9: for a buffer of whole tuples, every range [computeInactiveRanges]
    returns lies on one line, between numbers, with its start not after its
    end (so the editor's [Range] keeps start and end as given), and the
    ranges come in ascending order of their start positions. *)
Theorem decoded_ranges_ascend st tokens B :
  heap st !! data tokens = Some B →
  length B mod 5 = 0 →
  ∃ ranges,
    computeInactiveRanges tokens st = (Ok ranges, st)
    ∧ Forall one_line ranges
    ∧ ascending_starts ranges.
Proof.
  intros HB Hlen. eexists. split.
  { rewrite (computeInactiveRanges_run st tokens B HB). by rewrite decode_tuples. }
  destruct (filtered_tokenRanges_ascending (inactiveCodeTokenTypeIndex st) (tuples B) 0 0)
    as (Hone & _ & Hasc).
  done.
Qed.

Lemma decoded_ranges_ascend_witness :
  ∃ ranges,
    computeInactiveRanges tokens_example session_example = (Ok ranges, session_example)
    ∧ Forall one_line ranges
    ∧ ascending_starts ranges.
Proof.
  apply (decoded_ranges_ascend session_example tokens_example buffer_example).
  - reflexivity.
  - reflexivity.
Defined.

(** ** More on [initialize] *)

Lemma lastComment_cases tokenTypes v n :
  (lastComment tokenTypes v n = v
   ∧ ∀ j, j < n → tokenTypes !! j ≠ Some "comment"%string)
  ∨ (∃ i, i < n
          ∧ lastComment tokenTypes v n = Num (N.of_nat i)
          ∧ tokenTypes !! i = Some "comment"%string
          ∧ ∀ j, i < j → j < n → tokenTypes !! j ≠ Some "comment"%string).
Proof.
  induction n as [|n IH].
  { left. split; [done|]. intros j Hj. lia. }
  rewrite lastComment_S.
  destruct (bool_decide_reflect (tokenTypes !! n = Some "comment"%string)) as [Hn|Hn].
  - right. exists n. split; [lia|]. split; [done|]. split; [done|]. intros j ? ?. lia.
  - destruct IH as [[Hv Hnone]|(i & Hi & Hv & Hc & Hlast)].
    + left. split; [done|]. intros j Hj.
      destruct (decide (j = n)) as [->|]; [done|]. apply Hnone. lia.
    + right. exists i. split; [lia|]. split; [done|]. split; [done|].
      intros j ? ?. destruct (decide (j = n)) as [->|]; [done|]. apply Hlast; lia.
Qed.

(** X13: in a module whose inactive index is still unassigned, [initialize]
    with a legend leaves the replacement index at the legend's length and the
    inactive index either unassigned, the legend not naming ['comment'], or
    at a position of the legend that does name ['comment']; in both cases the
    replacement index is not the inactive index. *)
Theorem initialize_index_in_legend capabilities provider st :
  semanticTokensProvider capabilities = Some provider →
  inactiveCodeTokenTypeIndex st = Undefined →
  let tokenTypes := tokenTypes (legend provider) in
  ∃ st',
    initialize capabilities st = (Ok tt, st')
    ∧ inactiveCodeTokenTypeReplaceIndex st' = Num (N.of_nat (length tokenTypes))
    ∧ ((inactiveCodeTokenTypeIndex st' = Undefined
        ∧ ∀ j, tokenTypes !! j ≠ Some "comment"%string)
       ∨ (∃ i, inactiveCodeTokenTypeIndex st' = Num (N.of_nat i)
               ∧ i < length tokenTypes
               ∧ tokenTypes !! i = Some "comment"%string))
    ∧ loose_eq (inactiveCodeTokenTypeReplaceIndex st') (inactiveCodeTokenTypeIndex st')
      = false.
Proof.
  intros Hprov Hun tts. eexists. split; [by apply initialize_run|].
  split; [done|]. fold tts. simpl. rewrite Hun.
  destruct (lastComment_cases tts Undefined (length tts))
    as [[-> Hnone]|(i & Hi & -> & Hc & _)].
  - split; [|done]. left. split; [done|]. intros j Hj.
    apply (Hnone j); [|done]. by eapply lookup_lt_Some.
  - split; [right; by eauto|]. simpl. apply bool_decide_eq_false_2. lia.
Qed.

Lemma initialize_index_in_legend_witness :
  ∃ st',
    initialize with_legend (loaded ∅ []) = (Ok tt, st')
    ∧ inactiveCodeTokenTypeReplaceIndex st' = Num 23
    ∧ ((inactiveCodeTokenTypeIndex st' = Undefined
        ∧ ∀ j, tokenTypes legend_example !! j ≠ Some "comment"%string)
       ∨ (∃ i, inactiveCodeTokenTypeIndex st' = Num (N.of_nat i)
               ∧ i < 23
               ∧ tokenTypes legend_example !! i = Some "comment"%string))
    ∧ loose_eq (inactiveCodeTokenTypeReplaceIndex st') (inactiveCodeTokenTypeIndex st')
      = false.
Proof.
  apply (initialize_index_in_legend with_legend {| legend := legend_example |}
           (loaded ∅ [])).
  - reflexivity.
  - reflexivity.
Defined.

(** X14: [initialize] twice with the same capabilities leaves what
    [initialize] once leaves. *)
Theorem initialize_twice capabilities st :
  (initialize capabilities;; initialize capabilities) st = initialize capabilities st.
Proof.
  destruct (semanticTokensProvider capabilities) as [provider|] eqn:Hprov.
  - rewrite (bind_run _ _ _ _ _ (initialize_run capabilities provider st Hprov)).
    rewrite !(initialize_run capabilities provider _ Hprov). simpl.
    set (tts := tokenTypes (legend provider)).
    set (v := lastComment tts (inactiveCodeTokenTypeIndex st) (length tts)).
    assert (lastComment tts v (length tts) = v) as ->; [|done].
    unfold v.
    destruct (lastComment_cases tts (inactiveCodeTokenTypeIndex st) (length tts))
      as [[-> Hnone]|(i & Hi & -> & Hc & Hlast)].
    + destruct (lastComment_cases tts (inactiveCodeTokenTypeIndex st) (length tts))
        as [[-> _]|(i & Hi & _ & Hc & _)]; [done|]. by destruct (Hnone i Hi).
    + apply lastComment_found; [done|done|].
      intros j Hj. destruct (decide (j < length tts)) as [Hlt|Hge].
      * by apply Hlast.
      * rewrite lookup_ge_None_2; [done|lia].
  - unfold initialize. by rewrite Hprov.
Qed.

(** ** A buffer that ends in a partial tuple *)

Lemma foldl_ext_elem {A B} (f g : A → B → A) (l : list B) :
  (∀ a x, x ∈ l → f a x = g a x) → ∀ a, foldl f a l = foldl g a l.
Proof.
  induction l as [|x l IH]; intros Hext a; [done|]. simpl.
  rewrite Hext by (by left). apply IH. intros a' y Hy. apply Hext. by right.
Qed.

Lemma elem_app_l (B tail : list N) j : j < length B → elem (B ++ tail) j = elem B j.
Proof. intros Hj. unfold elem. by rewrite lookup_app_l. Qed.

Lemma decode_partial_tuple inactive (B tail : list N) :
  length B mod 5 = 0 → length tail < 4 → inactive ≠ Undefined →
  decode inactive (B ++ tail) = decode inactive B.
Proof.
  intros [n Hn]%length_mod5 Htail Hinactive.
  destruct tail as [|x tail]; [by rewrite app_nil_r|].
  unfold decode. rewrite length_app, Hn, tokenIndices_whole.
  assert (tokenIndices (5 * n + length (x :: tail)) = seq 0 n ++ [n]) as ->.
  { unfold tokenIndices. rewrite <- seq_S. f_equal.
    cbn [length] in Htail |- *.
    pose proof (Nat.div_mod_eq (5 * n + S (length tail) + 4) 5).
    pose proof (Nat.mod_upper_bound (5 * n + S (length tail) + 4) 5). lia. }
  rewrite foldl_snoc.
  rewrite (foldl_ext_elem _ (decode_step inactive B)); last first.
  { intros [[lastLine lastChar] ranges] i [_ Hi]%elem_of_seq.
    unfold decode_step. by rewrite !elem_app_l by lia. }
  destruct (foldl _ _ _) as [[lastLine lastChar] ranges].
  unfold decode_step.
  assert (elem (B ++ x :: tail) (5 * n + 3) = Undefined) as ->.
  { unfold elem. rewrite lookup_ge_None_2; [done|].
    rewrite length_app. simpl in *. lia. }
  by destruct inactive.
Qed.

Lemma remap_partial_tuple inactive s (B tail : list N) :
  length B mod 5 = 0 → length tail < 4 →
  remap inactive s (B ++ tail) = remap inactive s B ++ tail.
Proof.
  intros [n Hn]%length_mod5 Htail. unfold remap. rewrite imap_app. f_equal.
  apply list_eq. intros k. rewrite list_lookup_imap.
  destruct (tail !! k) as [x|] eqn:Hk; [|done].
  cbn [fmap option_fmap option_map]. f_equal.
  apply lookup_lt_Some in Hk.
  rewrite bool_decide_eq_false_2; [done|].
  rewrite Hn, Nat.add_comm, Nat.mul_comm, Nat.Div0.mod_add, Nat.mod_small; lia.
Qed.

(** X15: a buffer made of whole tuples [B] and fewer than 4 more integers,
    the inactive index being assigned: [computeInactiveRanges] returns what it
    returns for [B] alone, the last round reading no typeIndex, and
    [replaceInactiveRanges] returns the remapped [B] followed by the further
    integers as they are. *)
Theorem partial_tuple_is_ignored st tokens B tail sentinel :
  heap st !! data tokens = Some (B ++ tail) →
  length B mod 5 = 0 →
  length tail < 4 →
  inactiveCodeTokenTypeIndex st ≠ Undefined →
  inactiveCodeTokenTypeReplaceIndex st = Num sentinel →
  (sentinel < 2 ^ 32)%N →
  computeInactiveRanges tokens st
    = (Ok (inactiveTokenRanges (inactiveCodeTokenTypeIndex st) (tuples B)), st)
  ∧ ∃ out st',
      replaceInactiveRanges tokens st = (Ok out, st')
      ∧ heap st' !! data out
        = Some (remap (inactiveCodeTokenTypeIndex st) sentinel B ++ tail).
Proof.
  intros HB Hlen Htail Hinactive Hs Hlt. split.
  - rewrite (computeInactiveRanges_run st tokens _ HB).
    by rewrite decode_partial_tuple, decode_tuples.
  - eexists _, _. split; [by apply (replaceInactiveRanges_run st tokens (B ++ tail))|].
    cbn [data]. rewrite lookup_allocated_dest, remap_loop_remap, Hs, to_uint32_Num by done.
    by rewrite remap_partial_tuple.
Qed.

Lemma partial_tuple_is_ignored_witness :
  computeInactiveRanges tokens_example with_partial_tuple
    = (Ok [mkRange (Num 0) (Num 5) (Num 8)], with_partial_tuple)
  ∧ ∃ out st',
      replaceInactiveRanges tokens_example with_partial_tuple = (Ok out, st')
      ∧ heap st' !! data out = Some ([0; 5; 3; 23; 0] ++ [2; 1])%N.
Proof.
  apply (partial_tuple_is_ignored with_partial_tuple tokens_example
           [0; 5; 3; 7; 0]%N [2; 1]%N 23%N).
  - reflexivity.
  - reflexivity.
  - simpl; lia.
  - discriminate.
  - reflexivity.
  - reflexivity.
Defined.
